(** * flask-simple-crypt: a shallow embedding of [flask_simple_crypt.py]

    The module [SimpleCrypt] of the extension is embedded as functions in a
    small state-and-exception monad.  The state carries the instance
    ([self]), the system's random source and a chronological trace of the
    calls made into the cryptographic library, so that statements about
    what happens before or after an exception are statements about the
    final state.

    The primitives of PyCrypto (the AES block function, HMAC, PBKDF2) are
    an interface ([CryptoLib]); counter mode, the counter object, slicing
    and UTF-8 encoding are written out. *)

From Stdlib Require Import String ZArith Bool Lia List.
From Stdlib Require Import Init.Byte.
From Stdlib Require Strings.Byte.
Import ListNotations.

Local Open Scope Z_scope.

(* ================================================================= *)
(** ** Python values and builtins *)

Module Py.

(** [bytes] objects, and [str] objects as their sequence of code points. *)
Definition bytes := list byte.
Definition text := list N.

(** What a caller may pass where the code tests [isinstance(data, u_type)]
    with [u_type = type(b"".decode("utf8"))]: text or raw bytes. *)
Inductive value :=
| Str (s : text)
| Bytes (b : bytes).

Inductive exn :=
| RuntimeError (msg : string)
| ValueError (msg : string)
| TypeError
| OverflowError
| UnicodeEncodeError
| EncryptionException (msg : string)
| DecryptionException (msg : string).

Inductive result (A : Type) :=
| Ok (a : A)
| Raise (e : exn).
Arguments Ok {A} a.
Arguments Raise {A} e.

(** [len(x)] *)
Definition len {A} (l : list A) : Z := Z.of_nat (length l).

(** A slice bound as Python normalises it against the length: a negative
    index counts from the end, and both ends are clamped. *)
Definition slice_bound (n i : Z) : Z :=
  if i <? 0 then Z.max 0 (n + i) else Z.min i n.

(** [l[lo:hi]], either bound possibly omitted. *)
Definition slice {A} (l : list A) (lo hi : option Z) : list A :=
  let n := len l in
  let a := match lo with None => 0 | Some i => slice_bound n i end in
  let b := match hi with None => n | Some j => slice_bound n j end in
  firstn (Z.to_nat (b - a)) (skipn (Z.to_nat a) l).

(** Truthiness of a sequence: [not x] holds of the empty one. *)
Definition truthy {A} (l : list A) : bool :=
  match l with [] => false | _ :: _ => true end.

Definition truthy_value (v : value) : bool :=
  match v with Str s => truthy s | Bytes b => truthy b end.

(** The byte whose value is [z mod 256]. *)
Definition byte_of_Z (z : Z) : byte :=
  match Strings.Byte.of_N (Z.to_N (z mod 256)) with
  | Some b => b
  | None => x00
  end.

(** [ch.encode("utf8")] for one code point, with the strict error
    handler: a surrogate cannot be encoded.  Values from 0x110000 on are
    no code points and occur in no [str]. *)
Definition encode_codepoint (cp : N) : result bytes :=
  let c := Z.of_N cp in
  if c <? 0x80 then Ok [byte_of_Z c]
  else if c <? 0x800 then
    Ok [byte_of_Z (Z.lor 0xC0 (Z.shiftr c 6));
        byte_of_Z (Z.lor 0x80 (Z.land c 0x3F))]
  else if c <? 0x10000 then
    if (0xD800 <=? c) && (c <=? 0xDFFF) then Raise UnicodeEncodeError
    else
      Ok [byte_of_Z (Z.lor 0xE0 (Z.shiftr c 12));
          byte_of_Z (Z.lor 0x80 (Z.land (Z.shiftr c 6) 0x3F));
          byte_of_Z (Z.lor 0x80 (Z.land c 0x3F))]
  else if c <? 0x110000 then
    Ok [byte_of_Z (Z.lor 0xF0 (Z.shiftr c 18));
        byte_of_Z (Z.lor 0x80 (Z.land (Z.shiftr c 12) 0x3F));
        byte_of_Z (Z.lor 0x80 (Z.land (Z.shiftr c 6) 0x3F));
        byte_of_Z (Z.lor 0x80 (Z.land c 0x3F))]
  else Raise UnicodeEncodeError.

(** [s.encode("utf8")] *)
Fixpoint encode_utf8 (s : text) : result bytes :=
  match s with
  | [] => Ok []
  | cp :: rest =>
      match encode_codepoint cp with
      | Raise e => Raise e
      | Ok b =>
          match encode_utf8 rest with
          | Raise e => Raise e
          | Ok bs => Ok (b ++ bs)
          end
      end
  end.

(** Equality of two [bytes] objects, [a == b]. *)
Definition bytes_eqb (a b : bytes) : bool :=
  if list_eq_dec Strings.Byte.byte_eq_dec a b then true else false.

End Py.
Import Py.

(* ================================================================= *)
(** ** The cryptographic library (PyCrypto) as the code uses it *)

Module Crypto.

(** [Crypto.Hash.SHA256], the only digest module the code passes. *)
Inductive hash_module := SHA256.

Definition digest_size (h : hash_module) : Z :=
  match h with SHA256 => 32 end.

(** [AES.block_size] *)
Definition AES_block_size : Z := 16.

(** The primitives that are computed inside the library:
    - [AES_encrypt_block key block]: the AES block function;
    - [HMAC_digest key msg digestmod]: [HMAC.new(key, msg, digestmod).digest()];
    - [PBKDF2 password salt dkLen count prf]. *)
Class CryptoLib := {
  AES_encrypt_block : bytes -> bytes -> bytes;
  HMAC_digest : bytes -> bytes -> hash_module -> bytes;
  PBKDF2 : bytes -> bytes -> Z -> Z -> (bytes -> bytes -> bytes) -> bytes
}.

(** What is known of their sizes: the block function maps a block to a
    block under a 256-bit key, a digest has the size of its hash, and
    PBKDF2 with HMAC-SHA256 as its function returns [dkLen] bytes. *)
Class CryptoLaws (lib : CryptoLib) : Prop := {
  AES_block_length : forall key block : bytes,
    length key = 32%nat -> length block = 16%nat ->
    length (AES_encrypt_block key block) = 16%nat;
  HMAC_length : forall (key msg : bytes) (h : hash_module),
    len (HMAC_digest key msg h) = digest_size h;
  PBKDF2_length : forall (password salt : bytes) (dkLen count : Z),
    0 <= dkLen -> 0 < count ->
    len (PBKDF2 password salt dkLen count
                (fun p s => HMAC_digest p s SHA256)) = dkLen
}.

(** One call into the library or into the random source.  What PBKDF2
    does inside, the calls of its [prf] included, is part of its one
    event. *)
Inductive event :=
| EvGetrandbits (k : Z)
| EvPBKDF2 (password salt : bytes) (dkLen count : Z)
| EvHMAC (key msg : bytes)
| EvAES (key block : bytes).

(** The blocks handed to the block cipher, in order. *)
Fixpoint AES_inputs (t : list event) : list bytes :=
  match t with
  | [] => []
  | EvAES _ blk :: t' => blk :: AES_inputs t'
  | _ :: t' => AES_inputs t'
  end.

(** Bitwise exclusive or of two bytes. *)
Definition xor_byte (a b : byte) : byte :=
  let '(a0, (a1, (a2, (a3, (a4, (a5, (a6, a7))))))) := to_bits a in
  let '(b0, (b1, (b2, (b3, (b4, (b5, (b6, b7))))))) := to_bits b in
  of_bits (xorb a0 b0, (xorb a1 b1, (xorb a2 b2, (xorb a3 b3,
          (xorb a4 b4, (xorb a5 b5, (xorb a6 b6, xorb a7 b7))))))).

(** The data of one block combined with the key stream of that block;
    a last, shorter block uses the first bytes of the key stream. *)
Fixpoint xor_bytes (data keystream : bytes) : bytes :=
  match data, keystream with
  | d :: data', k :: keystream' => xor_byte d k :: xor_bytes data' keystream'
  | _, _ => []
  end.

(** [v] as [n] bytes, most significant first. *)
Fixpoint long_to_bytes (n : nat) (v : Z) : bytes :=
  match n with
  | O => []
  | S n' => byte_of_Z (Z.shiftr v (8 * Z.of_nat n')) :: long_to_bytes n' v
  end.

(** A counter object of [Crypto.Util.Counter]: big endian, [nbits] wide,
    after a fixed prefix. *)
Record Counter := {
  ctr_nbits : Z;
  ctr_prefix : bytes;
  ctr_value : Z
}.

(** [Counter.new(nbits, prefix=b"", suffix=b"", initial_value=1, ...)]:
    the value a counter starts from when the caller names none. *)
Definition initial_value_default : Z := 1.

(** [Counter.new(nbits, prefix=prefix)], as both call sites write it. *)
Definition Counter_new (nbits : Z) (prefix : bytes) : Counter :=
  {| ctr_nbits := nbits; ctr_prefix := prefix;
     ctr_value := initial_value_default |}.

(** The block a counter holds. *)
Definition Counter_block (c : Counter) : bytes :=
  ctr_prefix c ++ long_to_bytes (Z.to_nat (ctr_nbits c / 8)) (ctr_value c).

Definition Counter_incr (c : Counter) : Counter :=
  {| ctr_nbits := ctr_nbits c; ctr_prefix := ctr_prefix c;
     ctr_value := ctr_value c + 1 |}.

(** Calling the counter: its block, and the counter moved on.  Without
    [allow_wraparound] a counter that has passed [2**nbits - 1] raises. *)
Definition Counter_call (c : Counter) : result (bytes * Counter) :=
  if 2 ^ ctr_nbits c <=? ctr_value c then Raise OverflowError
  else Ok (Counter_block c, Counter_incr c).

(** The number of cipher blocks that [n] bytes of data take. *)
Definition blocks_of (n : nat) : nat :=
  Z.to_nat ((Z.of_nat n + AES_block_size - 1) / AES_block_size).

End Crypto.
Import Crypto.

(* ================================================================= *)
(** ** The instance and the state of a run *)

(** The attributes [__init__] gives an instance. *)
Record SimpleCrypt := {
  AES_KEY_LEN : Z;
  SALT_LEN : Z;
  HASH : hash_module;
  PREFIX : bytes;
  HEADER : bytes;
  HALF_BLOCK : Z;
  HEADER_LEN : Z;
  EXPANSION_COUNT : option Z;
  FSC_KEY : option value
}.

(** [app.config], as far as [init_app] reads it: a key that is absent is
    [None]. *)
Record App := {
  config_FSC_EXPANSION_COUNT : option Z;
  config_SECRET_KEY : option value
}.

(** What a call can read or change: the instance, the random source (the
    bytes it will give, and how many were drawn), and the calls made into
    the library so far, oldest first. *)
Record world := {
  self : SimpleCrypt;
  entropy : nat -> byte;
  drawn : nat;
  trace : list event
}.

(** Computations that read and change the [world] and may raise. *)
Definition M (A : Type) : Type := world -> result A * world.

Definition ret {A} (a : A) : M A := fun w => (Ok a, w).

Definition raise {A} (e : exn) : M A := fun w => (Raise e, w).

Definition bind {A B} (m : M A) (k : A -> M B) : M B :=
  fun w =>
    match m w with
    | (Ok a, w') => k a w'
    | (Raise e, w') => (Raise e, w')
    end.

Notation "x <- m ;; k" := (bind m (fun x => k))
  (at level 61, m at next level, right associativity).
Notation "m ;;; k" := (bind m (fun _ => k))
  (at level 61, right associativity).

(** Reading an attribute, [self.NAME]. *)
Definition attr {A} (field : SimpleCrypt -> A) : M A :=
  fun w => (Ok (field (self w)), w).

(** Rebinding the instance's attributes, [self.NAME = ...]. *)
Definition set_self (s : SimpleCrypt) : M unit :=
  fun w => (Ok tt, {| self := s; entropy := entropy w;
                      drawn := drawn w; trace := trace w |}).

(** Recording a call into the library. *)
Definition log (e : event) : M unit :=
  fun w => (Ok tt, {| self := self w; entropy := entropy w;
                      drawn := drawn w; trace := trace w ++ [e] |}).

(** [getrandbits(8)]: the next byte of the random source. *)
Definition getrandbits8 : M byte :=
  fun w => (Ok (entropy w (drawn w)),
            {| self := self w; entropy := entropy w;
               drawn := S (drawn w); trace := trace w ++ [EvGetrandbits 8] |}).

Definition result_of {A} (r : result A * world) : result A := fst r.
Definition world_of {A} (r : result A * world) : world := snd r.

Definition lift {A} (r : result A) : M A := fun w => (r, w).

(* ================================================================= *)
(** ** class SimpleCrypt *)

Section Methods.

Context {lib : CryptoLib}.

(** *** Counter mode, [AES.new(key, AES.MODE_CTR, counter=counter)] *)

Record Cipher := {
  cipher_key : bytes;
  cipher_counter : Counter
}.

Definition AES_new_CTR (key : bytes) (counter : Counter) : Cipher :=
  {| cipher_key := key; cipher_counter := counter |}.

(** One call of the block function. *)
Definition AES_block (key block : bytes) : M bytes :=
  log (EvAES key block) ;;;
  ret (AES_encrypt_block key block).

(** [n] blocks of [data]: each takes the counter's next block through
    the block function and is combined with the result. *)
Fixpoint ctr_blocks (key : bytes) (n : nat) (c : Counter) (data : bytes)
  : M bytes :=
  match n with
  | O => ret []
  | S n' =>
      bc <- lift (Counter_call c) ;;
      keystream <- AES_block key (fst bc) ;;
      rest <- ctr_blocks key n' (snd bc)
                (skipn (Z.to_nat AES_block_size) data) ;;
      ret (xor_bytes (firstn (Z.to_nat AES_block_size) data) keystream
           ++ rest)
  end.

(** [cipher.encrypt(data)] and [cipher.decrypt(data)]: in counter mode
    the same operation. *)
Definition cipher_encrypt (c : Cipher) (data : bytes) : M bytes :=
  ctr_blocks (cipher_key c) (blocks_of (length data)) (cipher_counter c) data.

Definition cipher_decrypt (c : Cipher) (data : bytes) : M bytes :=
  ctr_blocks (cipher_key c) (blocks_of (length data)) (cipher_counter c) data.

(** *** Helpers of the class *)

Definition _str_to_bytes (data : value) : M bytes :=
  match data with
  | Str s => lift (encode_utf8 s)
  | Bytes b => ret b
  end.

Definition _hmac (key data : bytes) : M bytes :=
  h <- attr HASH ;;
  log (EvHMAC key data) ;;;
  ret (HMAC_digest key data h).

Definition _pbkdf2 (password salt : bytes) (n_bytes : Z) (count : option Z)
  : M bytes :=
  h <- attr HASH ;;
  match count with
  | None => raise TypeError
  | Some c =>
      log (EvPBKDF2 password salt n_bytes c) ;;;
      ret (PBKDF2 password salt n_bytes c (fun p s => HMAC_digest p s h))
  end.

Definition _hide (ranbytes : bytes) : M bytes :=
  _pbkdf2 ranbytes [] (len ranbytes) (Some 1).

(** [bytearray(getrandbits(8) for _ in range(n))] *)
Fixpoint getrandbytes (n : nat) : M bytes :=
  match n with
  | O => ret []
  | S n' =>
      b <- getrandbits8 ;;
      bs <- getrandbytes n' ;;
      ret (b :: bs)
  end.

Definition _random_bytes (n : Z) : M bytes :=
  ranbytes <- getrandbytes (Z.to_nat n) ;;
  _hide ranbytes.

Definition _expand_keys (password : option value) (salt : bytes)
           (expansion_count : option Z) : M (bytes * bytes) :=
  if negb (truthy salt) then raise (ValueError "Missing salt.") else
  match password with
  | None => raise (ValueError "Missing password.")
  | Some password =>
      if negb (truthy_value password)
      then raise (ValueError "Missing password.") else
      akl <- attr AES_KEY_LEN ;;
      let key_len := akl / 8 in
      pw <- _str_to_bytes password ;;
      keys <- _pbkdf2 pw salt (2 * key_len) expansion_count ;;
      ret (slice keys None (Some key_len), slice keys (Some key_len) None)
  end.

Definition _assert_not_unicode (data : value) : M unit :=
  match data with
  | Str _ =>
      raise (DecryptionException
               ("Data to decrypt must be bytes; " ++
                "you cannot use a string because " ++
                "no string encoding will accept all " ++
                "possible characters."))
  | Bytes _ => ret tt
  end.

Definition _assert_encrypt_length (data : bytes) : M unit :=
  hb <- attr HALF_BLOCK ;;
  if len data >? 2 ^ hb
  then raise (EncryptionException "Message is too long.")
  else ret tt.

Definition _assert_decrypt_length (data : bytes) : M unit :=
  hl <- attr HEADER_LEN ;;
  sl <- attr SALT_LEN ;;
  h <- attr HASH ;;
  if len data <? hl + sl / 8 + digest_size h
  then raise (DecryptionException "Missing data.")
  else ret tt.

Definition _assert_header_prefix (data : bytes) : M unit :=
  p <- attr PREFIX ;;
  if (len data >=? 3) && negb (bytes_eqb (slice data None (Some 3)) p)
  then raise (DecryptionException
                "Data passed to decrypt were not generated by simple-crypt (bad header).")
  else ret tt.

Definition _assert_hmac (key hmac hmac2 : bytes) : M unit :=
  a <- _hmac key hmac ;;
  b <- _hmac key hmac2 ;;
  if negb (bytes_eqb a b)
  then raise (DecryptionException "Bad password or corrupt / modified data.")
  else ret tt.

(** *** Construction *)

Definition init_app (app : App) : M unit :=
  s <- attr (fun s => s) ;;
  set_self {| AES_KEY_LEN := AES_KEY_LEN s; SALT_LEN := SALT_LEN s;
              HASH := HASH s; PREFIX := PREFIX s; HEADER := HEADER s;
              HALF_BLOCK := HALF_BLOCK s; HEADER_LEN := HEADER_LEN s;
              EXPANSION_COUNT :=
                match config_FSC_EXPANSION_COUNT app with
                | Some c => Some c
                | None => Some 10000
                end;
              FSC_KEY := FSC_KEY s |} ;;;
  let key := config_SECRET_KEY app in
  match key with
  | None =>
      raise (RuntimeError "flask-simple-crypt requires the usage of SECRET_KEY")
  | Some k =>
      if negb (truthy_value k)
      then raise (RuntimeError "flask-simple-crypt requires the usage of SECRET_KEY")
      else
        s <- attr (fun s => s) ;;
        set_self {| AES_KEY_LEN := AES_KEY_LEN s; SALT_LEN := SALT_LEN s;
                    HASH := HASH s; PREFIX := PREFIX s; HEADER := HEADER s;
                    HALF_BLOCK := HALF_BLOCK s; HEADER_LEN := HEADER_LEN s;
                    EXPANSION_COUNT := EXPANSION_COUNT s;
                    FSC_KEY := Some k |}
  end.

Definition __init__ (app : option App) : M unit :=
  let prefix := [x66; x73; x63] in
  let header := prefix ++ [x00; x02] in
  set_self {| AES_KEY_LEN := 256; SALT_LEN := 256; HASH := SHA256;
              PREFIX := prefix; HEADER := header;
              HALF_BLOCK := AES_block_size * 8 / 2;
              HEADER_LEN := len header;
              EXPANSION_COUNT := None; FSC_KEY := None |} ;;;
  match app with
  | None => ret tt
  | Some app => init_app app
  end.

(** *** The two public operations *)

Definition encrypt (data : value) : M bytes :=
  data <- _str_to_bytes data ;;
  _assert_encrypt_length data ;;;
  sl <- attr SALT_LEN ;;
  salt <- _random_bytes (sl / 8) ;;
  key <- attr FSC_KEY ;;
  count <- attr EXPANSION_COUNT ;;
  keys <- _expand_keys key salt count ;;
  let hmac_key := fst keys in
  let cipher_key := snd keys in
  hb <- attr HALF_BLOCK ;;
  let counter := Counter_new hb (slice salt None (Some (hb / 8))) in
  let cipher := AES_new_CTR cipher_key counter in
  encrypted <- cipher_encrypt cipher data ;;
  header <- attr HEADER ;;
  hmac <- _hmac hmac_key (header ++ salt ++ encrypted) ;;
  ret (header ++ salt ++ encrypted ++ hmac).

Definition decrypt (data : value) : M bytes :=
  _assert_not_unicode data ;;;
  match data with
  | Str _ => raise TypeError (* not reached: the assertion has raised *)
  | Bytes data =>
      _assert_header_prefix data ;;;
      _assert_decrypt_length data ;;;
      hl <- attr HEADER_LEN ;;
      let raw := slice data (Some hl) None in
      sl <- attr SALT_LEN ;;
      let salt := slice raw None (Some (sl / 8)) in
      key <- attr FSC_KEY ;;
      count <- attr EXPANSION_COUNT ;;
      keys <- _expand_keys key salt count ;;
      let hmac_key := fst keys in
      let cipher_key := snd keys in
      h <- attr HASH ;;
      let hmac := slice raw (Some (- digest_size h)) None in
      hmac2 <- _hmac hmac_key (slice data None (Some (- digest_size h))) ;;
      _assert_hmac hmac_key hmac hmac2 ;;;
      hb <- attr HALF_BLOCK ;;
      let counter := Counter_new hb (slice salt None (Some (hb / 8))) in
      let cipher := AES_new_CTR cipher_key counter in
      cipher_decrypt cipher
        (slice raw (Some (sl / 8)) (Some (- digest_size h)))
  end.

End Methods.


(* ================================================================= *)
(** ** What a run leaves behind, and what counter mode computes *)

(** The world after the calls [evs] were made. *)
Definition with_trace (w : world) (evs : list event) : world :=
  {| self := self w; entropy := entropy w; drawn := drawn w;
     trace := trace w ++ evs |}.

(** The world after [n] bytes were drawn from the random source. *)
Definition after_draws (w : world) (n : nat) : world :=
  {| self := self w; entropy := entropy w; drawn := (drawn w + n)%nat;
     trace := trace w ++ repeat (EvGetrandbits 8) n |}.

(** The bytes the next [n] draws give. *)
Definition next_draws (w : world) (n : nat) : bytes :=
  map (entropy w) (seq (drawn w) n).

Section CounterMode.

Context {lib : CryptoLib}.

(** The output of [n] blocks of counter mode from counter [c] on. *)
Fixpoint ctr_output (key : bytes) (n : nat) (c : Counter) (data : bytes)
  : bytes :=
  match n with
  | O => []
  | S n' =>
      xor_bytes (firstn (Z.to_nat AES_block_size) data)
                (AES_encrypt_block key (Counter_block c))
      ++ ctr_output key n' (Counter_incr c)
           (skipn (Z.to_nat AES_block_size) data)
  end.

(** The calls of the block function these [n] blocks make. *)
Fixpoint ctr_events (key : bytes) (n : nat) (c : Counter) : list event :=
  match n with
  | O => []
  | S n' => EvAES key (Counter_block c) :: ctr_events key n' (Counter_incr c)
  end.

(** The salt [encrypt] draws in world [w]: 32 random bytes, hidden. *)
Definition salt_of (w : world) : bytes :=
  PBKDF2 (next_draws w 32) [] 32 1 (fun p s => HMAC_digest p s SHA256).

(** The two keys derived from a password, a salt and a count. *)
Definition derived (password salt : bytes) (count : Z) : bytes :=
  PBKDF2 password salt 64 count (fun p s => HMAC_digest p s SHA256).

(** The parts of the envelope [encrypt] builds from the key's bytes [kb],
    the count, the salt and the plaintext [p]. *)
Definition header : bytes := [x66; x73; x63; x00; x02].

Definition hmac_key_of (keys : bytes) : bytes := slice keys None (Some 32).

Definition cipher_key_of (keys : bytes) : bytes := slice keys (Some 32) None.

Definition counter_of (salt : bytes) : Counter :=
  Counter_new 64 (slice salt None (Some 8)).

Definition ciphertext_of (kb : bytes) (count : Z) (salt p : bytes) : bytes :=
  ctr_output (cipher_key_of (derived kb salt count))
             (blocks_of (length p)) (counter_of salt) p.

Definition mac_of (kb : bytes) (count : Z) (salt ct : bytes) : bytes :=
  HMAC_digest (hmac_key_of (derived kb salt count))
              (header ++ salt ++ ct) SHA256.

Definition envelope_of (kb : bytes) (count : Z) (salt p : bytes) : bytes :=
  let ct := ciphertext_of kb count salt p in
  header ++ salt ++ ct ++ mac_of kb count salt ct.

(** The calls [encrypt] makes after the salt was drawn. *)
Definition encrypt_events (kb : bytes) (count : Z) (w : world) (p : bytes)
  : list event :=
  let salt := salt_of w in
  [EvPBKDF2 (next_draws w 32) [] 32 1; EvPBKDF2 kb salt 64 count]
  ++ ctr_events (cipher_key_of (derived kb salt count))
                (blocks_of (length p)) (counter_of salt)
  ++ [EvHMAC (hmac_key_of (derived kb salt count))
             (header ++ salt ++ ciphertext_of kb count salt p)].

(** The parts [decrypt] reads off its input by fixed offsets. *)
Definition raw_in (data : bytes) : bytes := slice data (Some 5) None.

Definition salt_in (data : bytes) : bytes := slice (raw_in data) None (Some 32).

Definition mac_in (data : bytes) : bytes :=
  slice (raw_in data) (Some (- 32)) None.

Definition ciphertext_in (data : bytes) : bytes :=
  slice (raw_in data) (Some 32) (Some (- 32)).

Definition authenticated_in (data : bytes) : bytes :=
  slice data None (Some (- 32)).

(** The MAC [decrypt] recomputes over header, salt and ciphertext. *)
Definition recomputed_mac (kb : bytes) (count : Z) (data : bytes) : bytes :=
  HMAC_digest (hmac_key_of (derived kb (salt_in data) count))
              (authenticated_in data) SHA256.

(** The calls [decrypt] makes up to and including the comparison in
    [_assert_hmac]. *)
Definition verify_events (kb : bytes) (count : Z) (data : bytes)
  : list event :=
  let hk := hmac_key_of (derived kb (salt_in data) count) in
  [EvPBKDF2 kb (salt_in data) 64 count;
   EvHMAC hk (authenticated_in data);
   EvHMAC hk (mac_in data);
   EvHMAC hk (recomputed_mac kb count data)].

(** The calls [decrypt] makes when the comparison has passed. *)
Definition decrypt_events (kb : bytes) (count : Z) (data : bytes)
  : list event :=
  verify_events kb count data
  ++ ctr_events (cipher_key_of (derived kb (salt_in data) count))
                (blocks_of (length (ciphertext_in data)))
                (counter_of (salt_in data)).

End CounterMode.

(** The exceptions of [decrypt], by their messages. *)
Definition not_bytes : exn :=
  DecryptionException
    ("Data to decrypt must be bytes; " ++
     "you cannot use a string because " ++
     "no string encoding will accept all " ++
     "possible characters.").

Definition missing_data : exn := DecryptionException "Missing data.".

Definition bad_header : exn :=
  DecryptionException
    "Data passed to decrypt were not generated by simple-crypt (bad header).".

Definition bad_password : exn :=
  DecryptionException "Bad password or corrupt / modified data.".

Definition too_long : exn := EncryptionException "Message is too long.".

(** An input of at least three bytes that does not start with [b"fsc"]:
    the test of [_assert_header_prefix]. *)
Definition wrong_prefix (data : bytes) : bool :=
  (len data >=? 3) && negb (bytes_eqb (slice data None (Some 3)) [x66; x73; x63]).

(** The instance and the world with the secret key replaced. *)
Definition rekey (key : value) (s : SimpleCrypt) : SimpleCrypt :=
  {| AES_KEY_LEN := AES_KEY_LEN s; SALT_LEN := SALT_LEN s; HASH := HASH s;
     PREFIX := PREFIX s; HEADER := HEADER s; HALF_BLOCK := HALF_BLOCK s;
     HEADER_LEN := HEADER_LEN s; EXPANSION_COUNT := EXPANSION_COUNT s;
     FSC_KEY := Some key |}.

Definition rekey_world (key : value) (w : world) : world :=
  {| self := rekey key (self w); entropy := entropy w; drawn := drawn w;
     trace := trace w |}.

(** The bytes of a key or of data, [_str_to_bytes] without the state. *)
Definition value_bytes (v : value) : result bytes :=
  match v with
  | Str s => encode_utf8 s
  | Bytes b => Ok b
  end.

(** An instance as [__init__] and [init_app] leave it. *)
Definition configured (key : value) (count : Z) : SimpleCrypt :=
  {| AES_KEY_LEN := 256; SALT_LEN := 256; HASH := SHA256;
     PREFIX := [x66; x73; x63]; HEADER := [x66; x73; x63; x00; x02];
     HALF_BLOCK := 64; HEADER_LEN := 5;
     EXPANSION_COUNT := Some count; FSC_KEY := Some key |}.

(** The counter block of block [i] (from 0) under an 8-byte prefix and a
    64-bit counter that started at [start]. *)
Definition counter_block_at (prefix : bytes) (start : Z) (i : nat) : bytes :=
  prefix ++ long_to_bytes 8 (start + Z.of_nat i).

(** Byte [i] (from 0) of the key stream of counter mode: the block
    function applied to the counter block of block [i / 16] (the prefix,
    then the 64-bit counter that started at one), at offset [i mod 16]. *)
Definition keystream_byte {lib : CryptoLib} (key prefix : bytes) (i : nat)
  : byte :=
  nth (i mod 16) (AES_encrypt_block key (counter_block_at prefix 1 (i / 16)))
      x00.

(** A computation that leaves the instance as it found it, whatever it
    returns or raises. *)
Definition keeps_self {A} (m : M A) : Prop :=
  forall w, self (world_of (m w)) = self w.

(** Two computations that do the same when the first runs under the text
    key [k] and the second under the bytes key [kb]: same result, and
    final worlds that differ in the key only. *)
Definition agrees {A} (k : text) (kb : bytes) (m1 m2 : M A) : Prop :=
  forall w,
    FSC_KEY (self w) = Some (Str k) ->
    m2 (rekey_world (Bytes kb) w)
    = (result_of (m1 w), rekey_world (Bytes kb) (world_of (m1 w)))
    /\ FSC_KEY (self (world_of (m1 w))) = Some (Str k).

(** An instance as [__init__] leaves it when no application is given. *)
Definition unconfigured : SimpleCrypt :=
  {| AES_KEY_LEN := 256; SALT_LEN := 256; HASH := SHA256;
     PREFIX := [x66; x73; x63]; HEADER := [x66; x73; x63; x00; x02];
     HALF_BLOCK := 64; HEADER_LEN := 5;
     EXPANSION_COUNT := None; FSC_KEY := None |}.

(** [app.config.get('FSC_EXPANSION_COUNT', 10000)] *)
Definition configured_count (app : App) : Z :=
  match config_FSC_EXPANSION_COUNT app with
  | Some c => c
  | None => 10000
  end.

(** The application has a secret key that is not empty: [init_app]'s test
    [if not key] fails. *)
Definition has_key (app : App) : bool :=
  match config_SECRET_KEY app with
  | Some k => truthy_value k
  | None => false
  end.

(** The world with the expansion count of the instance replaced. *)
Definition recount_world (count : Z) (w : world) : world :=
  {| self :=
       {| AES_KEY_LEN := AES_KEY_LEN (self w); SALT_LEN := SALT_LEN (self w);
          HASH := HASH (self w); PREFIX := PREFIX (self w);
          HEADER := HEADER (self w); HALF_BLOCK := HALF_BLOCK (self w);
          HEADER_LEN := HEADER_LEN (self w);
          EXPANSION_COUNT := Some count; FSC_KEY := FSC_KEY (self w) |};
     entropy := entropy w; drawn := drawn w; trace := trace w |}.

(** The world with another instance in it. *)
Definition with_self (s : SimpleCrypt) (w : world) : world :=
  {| self := s; entropy := entropy w; drawn := drawn w; trace := trace w |}.

(** [sys.maxsize] of a 64-bit CPython: the most bytes a [bytes] object or
    code points a [str] can hold. *)
Definition maxsize : Z := 2 ^ 63 - 1.

(** A computation that never raises the exception [e0]. *)
Definition never_raises {A} (e0 : exn) (m : M A) : Prop :=
  forall w, result_of (m w) <> Raise e0.

(** A computation that takes nothing from the random source. *)
Definition keeps_source {A} (m : M A) : Prop :=
  forall w, drawn (world_of (m w)) = drawn w /\
            entropy (world_of (m w)) = entropy w.

(** The plaintext [decrypt] returns once the comparison has passed: the
    ciphertext read off the input, through counter mode. *)
Definition plaintext_in {lib : CryptoLib} (kb : bytes) (count : Z)
           (data : bytes) : bytes :=
  ctr_output (cipher_key_of (derived kb (salt_in data) count))
             (blocks_of (length (ciphertext_in data)))
             (counter_of (salt_in data)) (ciphertext_in data).

(* ================================================================= *)
(** ** A small library instance to run the code on *)

Module Example.

(** [l] cut or zero-filled to [n] bytes. *)
Definition fit (n : nat) (l : bytes) : bytes := firstn n (l ++ repeat x00 n).

Definition toy_AES (key block : bytes) : bytes :=
  xor_bytes block (fit 16 key).

Definition toy_HMAC (key msg : bytes) (h : hash_module) : bytes :=
  fit (Z.to_nat (digest_size h)) (rev msg ++ key).

Definition toy_PBKDF2 (password salt : bytes) (dkLen count : Z)
           (prf : bytes -> bytes -> bytes) : bytes :=
  fit (Z.to_nat dkLen) (prf password salt ++ password).

Definition toy : CryptoLib :=
  {| AES_encrypt_block := toy_AES;
     HMAC_digest := toy_HMAC;
     PBKDF2 := toy_PBKDF2 |}.

(** A random source, and a fresh world around an instance. *)
Definition toy_entropy (i : nat) : byte := byte_of_Z (7 * Z.of_nat i + 3).

Definition fresh (s : SimpleCrypt) : world :=
  {| self := s; entropy := toy_entropy; drawn := O; trace := [] |}.

(** The secret key [b"key"], the text ["hé"] and the bytes [b"hello world"]. *)
Definition key_bytes : value := Bytes [x6b; x65; x79].
Definition key_text : value := Str [107%N; 101%N; 121%N].
Definition text_he : text := [104%N; 233%N].
Definition hello_world : bytes :=
  [x68; x65; x6c; x6c; x6f; x20; x77; x6f; x72; x6c; x64].

(** The envelope of [hello_world] under [key_bytes], count 1000 and a
    fresh world, and that envelope with its last byte replaced. *)
Definition envelope : bytes :=
  match encrypt (lib := toy) (Bytes hello_world)
                {| self := configured key_bytes 1000; entropy := toy_entropy;
                   drawn := O; trace := [] |} with
  | (Ok env, _) => env
  | (Raise _, _) => []
  end.


(** An input with the magic prefix, two other version bytes, a salt, a
    ciphertext and the MAC of all that under the key derived from
    [key_bytes] and count 1000. *)
Definition other_version_body : bytes :=
  [x66; x73; x63; x09; x09] ++ firstn 32 (skipn 5 envelope)
  ++ [x01; x02; x03].

Definition other_version : bytes :=
  other_version_body
  ++ toy_HMAC (hmac_key_of
                 (derived (lib := toy) [x6b; x65; x79]
                          (firstn 32 (skipn 5 envelope)) 1000))
              other_version_body SHA256.





(** An application without a secret key. *)
Definition app_no_key : App :=
  {| config_FSC_EXPANSION_COUNT := Some 5000;
     config_SECRET_KEY := None |}.

Definition app : App :=
  {| config_FSC_EXPANSION_COUNT := Some 1000;
     config_SECRET_KEY := Some key_bytes |}.

End Example.

(* ================================================================= *)
(** ** Bytes, slices and UTF-8 *)

Lemma xor_byte_involutive (a k : byte) : xor_byte (xor_byte a k) k = a.
Proof.
  unfold xor_byte.
  destruct (to_bits a) as [a0 [a1 [a2 [a3 [a4 [a5 [a6 a7]]]]]]] eqn:Ea.
  destruct (to_bits k) as [k0 [k1 [k2 [k3 [k4 [k5 [k6 k7]]]]]]] eqn:Ek.
  rewrite to_bits_of_bits.
  rewrite !xorb_assoc, !xorb_nilpotent, !xorb_false_r.
  rewrite <- Ea. apply of_bits_to_bits.
Qed.

Lemma xor_bytes_length (d k : bytes) :
  length (xor_bytes d k) = Nat.min (length d) (length k).
Proof.
  revert k. induction d as [|x d IH]; intros [|y k]; simpl; auto.
Qed.

Lemma xor_bytes_involutive (d k : bytes) :
  (length d <= length k)%nat -> xor_bytes (xor_bytes d k) k = d.
Proof.
  revert k. induction d as [|x d IH]; intros [|y k] Hl; simpl in *; auto.
  - lia.
  - rewrite xor_byte_involutive, IH by lia. reflexivity.
Qed.

Lemma long_to_bytes_length (n : nat) (v : Z) : length (long_to_bytes n v) = n.
Proof. induction n; simpl; auto. Qed.

Lemma slice_prefix {A} (a b : list A) (n : Z) :
  len a = n -> slice (a ++ b) None (Some n) = a.
Proof.
  unfold slice, slice_bound, len. intros Hn.
  rewrite length_app.
  destruct (n <? 0) eqn:E; [apply Z.ltb_lt in E; lia|].
  rewrite Z.min_l by lia. rewrite Z.sub_0_r. simpl skipn.
  subst n. rewrite Nat2Z.id.
  rewrite firstn_app, Nat.sub_diag, firstn_all. simpl. apply app_nil_r.
Qed.

Lemma slice_suffix {A} (a b : list A) (n : Z) :
  len a = n -> slice (a ++ b) (Some n) None = b.
Proof.
  unfold slice, slice_bound, len. intros Hn.
  rewrite length_app.
  destruct (n <? 0) eqn:E; [apply Z.ltb_lt in E; lia|].
  rewrite Z.min_l by lia. subst n. rewrite Nat2Z.id.
  rewrite skipn_app, Nat.sub_diag, skipn_all. simpl.
  apply firstn_all2. lia.
Qed.

Lemma slice_drop_last {A} (a b : list A) (n : Z) :
  0 < n -> len b = n -> slice (a ++ b) None (Some (- n)) = a.
Proof.
  unfold slice, slice_bound, len. intros Hp Hn.
  rewrite length_app.
  destruct (- n <? 0) eqn:E; [|apply Z.ltb_ge in E; lia].
  rewrite Z.max_r by lia. rewrite Z.sub_0_r. simpl skipn.
  replace (Z.to_nat (Z.of_nat (length a + length b) + - n)) with (length a) by lia.
  rewrite firstn_app, Nat.sub_diag, firstn_all. simpl. apply app_nil_r.
Qed.

Lemma slice_last {A} (a b : list A) (n : Z) :
  0 < n -> len b = n -> slice (a ++ b) (Some (- n)) None = b.
Proof.
  unfold slice, slice_bound, len. intros Hp Hn.
  rewrite length_app.
  destruct (- n <? 0) eqn:E; [|apply Z.ltb_ge in E; lia].
  rewrite Z.max_r by lia.
  replace (Z.to_nat (Z.of_nat (length a + length b) + - n)) with (length a) by lia.
  rewrite skipn_app, Nat.sub_diag, skipn_all. simpl.
  apply firstn_all2. lia.
Qed.

Lemma slice_middle {A} (a b c : list A) (n m : Z) :
  len a = n -> 0 < m -> len c = m ->
  slice (a ++ b ++ c) (Some n) (Some (- m)) = b.
Proof.
  unfold slice, slice_bound, len. intros Hn Hp Hm.
  rewrite !length_app.
  destruct (n <? 0) eqn:E; [apply Z.ltb_lt in E; lia|].
  destruct (- m <? 0) eqn:E'; [|apply Z.ltb_ge in E'; lia].
  rewrite Z.min_l by lia. rewrite Z.max_r by lia.
  subst n. rewrite Nat2Z.id.
  rewrite skipn_app, Nat.sub_diag, skipn_all. simpl.
  replace (Z.to_nat _) with (length b) by lia.
  rewrite firstn_app, Nat.sub_diag, firstn_all. simpl. apply app_nil_r.
Qed.

Lemma slice_first_length {A} (l : list A) (n : Z) :
  0 <= n <= len l -> length (slice l None (Some n)) = Z.to_nat n.
Proof.
  unfold slice, slice_bound, len. intros Hn.
  destruct (n <? 0) eqn:E; [apply Z.ltb_lt in E; lia|].
  rewrite Z.min_l by lia. rewrite Z.sub_0_r. simpl skipn.
  rewrite length_firstn. lia.
Qed.

Lemma slice_rest_length {A} (l : list A) (n : Z) :
  0 <= n <= len l -> length (slice l (Some n) None) = Z.to_nat (len l - n).
Proof.
  unfold slice, slice_bound, len. intros Hn.
  destruct (n <? 0) eqn:E; [apply Z.ltb_lt in E; lia|].
  rewrite Z.min_l by lia.
  rewrite length_firstn, length_skipn. lia.
Qed.

Lemma bytes_eqb_eq (a b : bytes) : bytes_eqb a b = true <-> a = b.
Proof.
  unfold bytes_eqb.
  destruct (list_eq_dec Strings.Byte.byte_eq_dec a b); split; congruence.
Qed.

Lemma bytes_eqb_refl (a : bytes) : bytes_eqb a a = true.
Proof. apply bytes_eqb_eq. reflexivity. Qed.

Lemma encode_codepoint_truthy (cp : N) (b : bytes) :
  encode_codepoint cp = Ok b -> truthy b = true.
Proof.
  unfold encode_codepoint.
  repeat match goal with
         | |- context [if ?c then _ else _] => destruct c
         end; intros H; inversion H; reflexivity.
Qed.

(** A text is empty exactly when its UTF-8 encoding is: [not s] and
    [not s.encode("utf8")] agree. *)
Lemma encode_utf8_truthy (s : text) (b : bytes) :
  encode_utf8 s = Ok b -> truthy b = truthy s.
Proof.
  destruct s as [|cp rest]; simpl.
  - intros H. inversion H. reflexivity.
  - destruct (encode_codepoint cp) as [b0|] eqn:E0; [|discriminate].
    destruct (encode_utf8 rest) as [bs|]; [|discriminate].
    intros H. inversion H. subst b.
    apply encode_codepoint_truthy in E0.
    destruct b0; [discriminate|reflexivity].
Qed.

(* ================================================================= *)
(** ** Running the helpers *)

Lemma with_trace_nil (w : world) : with_trace w [] = w.
Proof. destruct w. unfold with_trace. simpl. rewrite app_nil_r. reflexivity. Qed.

Lemma with_trace_app (w : world) (a b : list event) :
  with_trace (with_trace w a) b = with_trace w (a ++ b).
Proof. unfold with_trace. simpl. rewrite app_assoc. reflexivity. Qed.

Lemma bind_ok {A B} (m : M A) (k : A -> M B) (w w' : world) (a : A) :
  m w = (Ok a, w') -> bind m k w = k a w'.
Proof. unfold bind. intros ->. reflexivity. Qed.

Lemma bind_raise {A B} (m : M A) (k : A -> M B) (w w' : world) (e : exn) :
  m w = (Raise e, w') -> bind m k w = (Raise e, w').
Proof. unfold bind. intros ->. reflexivity. Qed.

Lemma log_run_eq (e : event) (w : world) : log e w = (Ok tt, with_trace w [e]).
Proof. reflexivity. Qed.

Lemma AES_inputs_app (a b : list event) :
  AES_inputs (a ++ b) = AES_inputs a ++ AES_inputs b.
Proof.
  induction a as [|e a IH]; simpl; auto.
  destruct e; simpl; rewrite ?IH; reflexivity.
Qed.

Lemma AES_inputs_draws (n : nat) : AES_inputs (repeat (EvGetrandbits 8) n) = [].
Proof. induction n; simpl; auto. Qed.

Section Runs.

Context {lib : CryptoLib}.

Lemma _hmac_run (key data : bytes) (w : world) :
  _hmac key data w =
  (Ok (HMAC_digest key data (HASH (self w))), with_trace w [EvHMAC key data]).
Proof. reflexivity. Qed.

Lemma _pbkdf2_run (password salt : bytes) (n c : Z) (w : world) :
  _pbkdf2 password salt n (Some c) w =
  (Ok (PBKDF2 password salt n c (fun p s => HMAC_digest p s (HASH (self w)))),
   with_trace w [EvPBKDF2 password salt n c]).
Proof. reflexivity. Qed.

Lemma getrandbytes_run (n : nat) (w : world) :
  getrandbytes n w = (Ok (next_draws w n), after_draws w n).
Proof.
  revert w. induction n as [|n IH]; intros w.
  - unfold after_draws, next_draws. simpl. unfold ret.
    rewrite Nat.add_0_r, app_nil_r. destruct w; reflexivity.
  - simpl. unfold bind at 1. unfold getrandbits8 at 1.
    unfold bind at 1. rewrite IH.
    unfold ret, after_draws, next_draws. simpl.
    rewrite <- app_assoc, Nat.add_succ_r. reflexivity.
Qed.

Lemma ctr_blocks_run (key : bytes) (n : nat) (c : Counter) (data : bytes)
      (w : world) :
  ctr_value c + Z.of_nat n <= 2 ^ ctr_nbits c ->
  ctr_blocks key n c data w =
  (Ok (ctr_output key n c data), with_trace w (ctr_events key n c)).
Proof.
  revert c data w. induction n as [|n IH]; intros c data w Hb.
  - simpl. unfold ret. rewrite with_trace_nil. reflexivity.
  - cbn [ctr_blocks ctr_output ctr_events].
    unfold bind at 1, lift, Counter_call.
    destruct (2 ^ ctr_nbits c <=? ctr_value c) eqn:E;
      [apply Z.leb_le in E; lia|].
    cbn [fst snd]. unfold bind at 1, AES_block.
    unfold bind at 1. rewrite log_run_eq.
    unfold ret at 1. unfold bind at 1.
    rewrite IH by (simpl; lia).
    unfold ret. rewrite with_trace_app. reflexivity.
Qed.

End Runs.

(* ================================================================= *)
(** ** Running [encrypt] and [decrypt] on a configured instance *)

Section PublicRuns.

Context {lib : CryptoLib}.

Lemma blocks_of_bound (n : nat) :
  Z.of_nat n <= 2 ^ 64 -> 1 + Z.of_nat (blocks_of n) <= 2 ^ 64.
Proof.
  intros H. unfold blocks_of, AES_block_size.
  rewrite Z2Nat.id by (apply Z.div_pos; lia).
  assert ((Z.of_nat n + 16 - 1) / 16 <= (2 ^ 64 + 15) / 16)
    by (apply Z.div_le_mono; lia).
  assert ((2 ^ 64 + 15) / 16 < 2 ^ 64 - 1) by (vm_compute; reflexivity).
  lia.
Qed.

Lemma _str_to_bytes_run (v : value) (w : world) :
  _str_to_bytes v w = (value_bytes v, w).
Proof. destruct v; reflexivity. Qed.

Lemma _random_bytes_run (key : value) (count : Z) (w : world) :
  self w = configured key count ->
  _random_bytes (256 / 8) w =
  (Ok (salt_of w),
   with_trace (after_draws w 32) [EvPBKDF2 (next_draws w 32) [] 32 1]).
Proof.
  intros Hs. unfold _random_bytes.
  change (Z.to_nat (256 / 8)) with 32%nat.
  erewrite bind_ok by apply getrandbytes_run.
  unfold _hide. rewrite _pbkdf2_run.
  cbn [self after_draws]. rewrite Hs. cbn [HASH configured].
  replace (len (next_draws w 32)) with 32
    by (unfold len, next_draws; rewrite length_map, length_seq; reflexivity).
  reflexivity.
Qed.

Lemma _expand_keys_run (key : value) (kb salt : bytes) (count : Z) (w : world) :
  self w = configured key count ->
  truthy_value key = true ->
  value_bytes key = Ok kb ->
  truthy salt = true ->
  _expand_keys (Some key) salt (Some count) w =
  (Ok (hmac_key_of (derived kb salt count),
       cipher_key_of (derived kb salt count)),
   with_trace w [EvPBKDF2 kb salt 64 count]).
Proof.
  intros Hs Hk Hkb Hsalt. unfold _expand_keys.
  rewrite Hsalt, Hk. cbn [negb].
  erewrite bind_ok by reflexivity.
  erewrite bind_ok by (rewrite _str_to_bytes_run, Hkb; reflexivity).
  rewrite Hs. cbn [AES_KEY_LEN configured].
  erewrite bind_ok by apply _pbkdf2_run.
  rewrite Hs. reflexivity.
Qed.

Lemma encrypt_run (key : value) (kb : bytes) (count : Z) (p : bytes) (w : world) :
  self w = configured key count ->
  truthy_value key = true ->
  value_bytes key = Ok kb ->
  len p <= 2 ^ 64 ->
  truthy (salt_of w) = true ->
  encrypt (Bytes p) w =
  (Ok (envelope_of kb count (salt_of w) p),
   with_trace (after_draws w 32) (encrypt_events kb count w p)).
Proof.
  intros Hs Hk Hkb Hlen Hsalt.
  unfold encrypt.
  erewrite bind_ok by reflexivity.
  erewrite bind_ok.
  2:{ unfold _assert_encrypt_length. erewrite bind_ok by reflexivity.
      rewrite Hs. cbn [HALF_BLOCK configured].
      destruct (len p >? 2 ^ 64) eqn:E; [apply Z.gtb_lt in E; lia|].
      reflexivity. }
  erewrite bind_ok by reflexivity.
  rewrite Hs. cbn [SALT_LEN configured].
  erewrite bind_ok by (eapply _random_bytes_run; exact Hs).
  erewrite bind_ok by reflexivity.
  erewrite bind_ok by reflexivity.
  cbn [self with_trace after_draws]. rewrite Hs.
  cbn [FSC_KEY EXPANSION_COUNT configured].
  erewrite bind_ok by (eapply _expand_keys_run; eauto).
  cbn [fst snd].
  erewrite bind_ok by reflexivity.
  cbn [self with_trace after_draws]. rewrite Hs.
  cbn [HALF_BLOCK configured].
  change (64 / 8) with 8.
  fold (counter_of (salt_of w)).
  erewrite bind_ok.
  2:{ unfold cipher_encrypt, AES_new_CTR. cbn [cipher_key cipher_counter].
      apply ctr_blocks_run. cbn [ctr_value ctr_nbits counter_of Counter_new].
      unfold initial_value_default. apply blocks_of_bound. exact Hlen. }
  erewrite bind_ok by reflexivity.
  erewrite bind_ok by apply _hmac_run.
  unfold ret.
  cbn [self with_trace after_draws]. rewrite Hs.
  cbn [HEADER HASH configured].
  rewrite !with_trace_app.
  reflexivity.
Qed.

Lemma truthy_of_length {A} (l : list A) (n : nat) :
  length l = S n -> truthy l = true.
Proof. destruct l; simpl; [discriminate|reflexivity]. Qed.

Lemma salt_in_length (data : bytes) :
  69 <= len data -> length (salt_in data) = 32%nat.
Proof.
  intros H. unfold salt_in, raw_in.
  rewrite slice_first_length; [reflexivity|].
  unfold len at 1. rewrite slice_rest_length by (unfold len in *; lia).
  unfold len in *. lia.
Qed.

Lemma decrypt_wrong_prefix (key : value) (count : Z) (data : bytes) (w : world) :
  self w = configured key count ->
  wrong_prefix data = true ->
  decrypt (Bytes data) w = (Raise bad_header, w).
Proof.
  intros Hs Hp. unfold decrypt.
  erewrite bind_ok by reflexivity.
  erewrite bind_raise; [reflexivity|].
  unfold _assert_header_prefix. erewrite bind_ok by reflexivity.
  rewrite Hs. cbn [PREFIX configured].
  unfold wrong_prefix in Hp. rewrite Hp. reflexivity.
Qed.

Lemma decrypt_short (key : value) (count : Z) (data : bytes) (w : world) :
  self w = configured key count ->
  len data < 69 ->
  decrypt (Bytes data) w =
  (Raise (if wrong_prefix data then bad_header else missing_data), w).
Proof.
  intros Hs Hl.
  destruct (wrong_prefix data) eqn:Hp.
  - eapply decrypt_wrong_prefix; eauto.
  - unfold decrypt.
    erewrite bind_ok by reflexivity.
    erewrite bind_ok.
    2:{ unfold _assert_header_prefix. erewrite bind_ok by reflexivity.
        rewrite Hs. cbn [PREFIX configured].
        unfold wrong_prefix in Hp. rewrite Hp. reflexivity. }
    erewrite bind_raise; [reflexivity|].
    unfold _assert_decrypt_length.
    do 3 erewrite bind_ok by reflexivity.
    rewrite Hs. cbn [HEADER_LEN SALT_LEN HASH configured digest_size].
    change (5 + 256 / 8 + 32) with 69.
    destruct (len data <? 69) eqn:E; [reflexivity|].
    apply Z.ltb_ge in E. lia.
Qed.

Lemma decrypt_checked (key : value) (kb : bytes) (count : Z) (data : bytes)
      (w : world) :
  self w = configured key count ->
  truthy_value key = true ->
  value_bytes key = Ok kb ->
  69 <= len data ->
  wrong_prefix data = false ->
  decrypt (Bytes data) w =
  let hk := hmac_key_of (derived kb (salt_in data) count) in
  if bytes_eqb (HMAC_digest hk (mac_in data) SHA256)
               (HMAC_digest hk (recomputed_mac kb count data) SHA256)
  then ctr_blocks (cipher_key_of (derived kb (salt_in data) count))
                  (blocks_of (length (ciphertext_in data)))
                  (counter_of (salt_in data)) (ciphertext_in data)
                  (with_trace w (verify_events kb count data))
  else (Raise bad_password, with_trace w (verify_events kb count data)).
Proof.
  intros Hs Hk Hkb Hl Hp. unfold decrypt.
  erewrite bind_ok by reflexivity.
  erewrite bind_ok.
  2:{ unfold _assert_header_prefix. erewrite bind_ok by reflexivity.
      rewrite Hs. cbn [PREFIX configured].
      unfold wrong_prefix in Hp. rewrite Hp. reflexivity. }
  erewrite bind_ok.
  2:{ unfold _assert_decrypt_length.
      do 3 erewrite bind_ok by reflexivity.
      rewrite Hs. cbn [HEADER_LEN SALT_LEN HASH configured digest_size].
      change (5 + 256 / 8 + 32) with 69.
      destruct (len data <? 69) eqn:E; [apply Z.ltb_lt in E; lia|].
      reflexivity. }
  do 4 erewrite bind_ok by reflexivity.
  rewrite Hs.
  cbn [HEADER_LEN SALT_LEN FSC_KEY EXPANSION_COUNT configured].
  change (256 / 8) with 32.
  fold (raw_in data). fold (salt_in data).
  erewrite bind_ok.
  2:{ eapply _expand_keys_run; eauto.
      eapply truthy_of_length. apply salt_in_length. exact Hl. }
  cbn [fst snd].
  erewrite bind_ok by reflexivity.
  cbn [self with_trace]. rewrite Hs. cbn [HASH configured digest_size].
  change (Z.opp 32) with (Z.neg 32).
  fold (authenticated_in data). fold (mac_in data). fold (ciphertext_in data).
  erewrite bind_ok by apply _hmac_run.
  cbn [self with_trace]. rewrite Hs. cbn [HASH configured].
  fold (recomputed_mac kb count data).
  unfold _assert_hmac.
  cbn zeta.
  destruct (bytes_eqb _ _) eqn:E.
  - erewrite bind_ok.
    2:{ do 2 erewrite bind_ok by apply _hmac_run.
        cbn [self with_trace]. rewrite Hs. cbn [HASH configured].
        rewrite E. reflexivity. }
    erewrite bind_ok by reflexivity.
    cbn [self with_trace]. rewrite Hs. cbn [HALF_BLOCK configured].
    change (64 / 8) with 8. fold (counter_of (salt_in data)).
    unfold cipher_decrypt, AES_new_CTR. cbn [cipher_key cipher_counter].
    rewrite !with_trace_app. reflexivity.
  - erewrite bind_raise.
    2:{ do 2 erewrite bind_ok by apply _hmac_run.
        cbn [self with_trace]. rewrite Hs. cbn [HASH configured].
        rewrite E. reflexivity. }
    rewrite !with_trace_app. reflexivity.
Qed.

Lemma blocks_of_covers (n : nat) : (n <= 16 * blocks_of n)%nat.
Proof.
  unfold blocks_of, AES_block_size.
  assert (H : Z.of_nat n <= 16 * ((Z.of_nat n + 16 - 1) / 16)).
  { pose proof (Z.div_mod (Z.of_nat n + 16 - 1) 16 ltac:(lia)).
    pose proof (Z.mod_pos_bound (Z.of_nat n + 16 - 1) 16 ltac:(lia)). lia. }
  assert (0 <= (Z.of_nat n + 16 - 1) / 16) by (apply Z.div_pos; lia).
  lia.
Qed.

Lemma Counter_block_length (c : Counter) :
  length (Counter_block c) =
  (length (ctr_prefix c) + Z.to_nat (ctr_nbits c / 8))%nat.
Proof. unfold Counter_block. rewrite length_app, long_to_bytes_length. reflexivity. Qed.

Lemma Counter_block_incr_length (c : Counter) :
  length (Counter_block (Counter_incr c)) = length (Counter_block c).
Proof. rewrite !Counter_block_length. reflexivity. Qed.

Section Involution.

Variable key : bytes.
Hypothesis block_to_block : forall block : bytes,
  length block = 16%nat -> length (AES_encrypt_block key block) = 16%nat.

Lemma ctr_output_length (n : nat) (c : Counter) (data : bytes) :
  length (Counter_block c) = 16%nat ->
  (length data <= 16 * n)%nat ->
  length (ctr_output key n c data) = length data.
Proof.
  revert c data. induction n as [|n IH]; intros c data Hc Hd.
  - destruct data; simpl in *; [reflexivity|lia].
  - cbn [ctr_output]. change (Z.to_nat AES_block_size) with 16%nat.
    rewrite length_app, xor_bytes_length, length_firstn.
    rewrite block_to_block by exact Hc.
    rewrite IH.
    + rewrite length_skipn. lia.
    + rewrite Counter_block_incr_length. exact Hc.
    + rewrite length_skipn. lia.
Qed.

Lemma ctr_output_involutive (n : nat) (c : Counter) (data : bytes) :
  length (Counter_block c) = 16%nat ->
  (length data <= 16 * n)%nat ->
  ctr_output key n c (ctr_output key n c data) = data.
Proof.
  revert c data. induction n as [|n IH]; intros c data Hc Hd.
  - destruct data; simpl in *; [reflexivity|lia].
  - cbn [ctr_output]. change (Z.to_nat AES_block_size) with 16%nat.
    set (ks := AES_encrypt_block key (Counter_block c)).
    set (X := xor_bytes (firstn 16 data) ks).
    set (R := ctr_output key n (Counter_incr c) (skipn 16 data)).
    assert (Hks : length ks = 16%nat) by (apply block_to_block; exact Hc).
    assert (HX : length X = Nat.min (length data) 16).
    { unfold X. rewrite xor_bytes_length, length_firstn, Hks. lia. }
    assert (HR : length R = (length data - 16)%nat).
    { unfold R. rewrite ctr_output_length.
      - apply length_skipn.
      - rewrite Counter_block_incr_length. exact Hc.
      - rewrite length_skipn. lia. }
    assert (Hf : firstn 16 (X ++ R) = X /\ skipn 16 (X ++ R) = R).
    { destruct (Nat.le_gt_cases 16 (length data)) as [Hge|Hlt].
      - assert (length X = 16%nat) by lia.
        split.
        + rewrite firstn_app. replace (16 - length X)%nat with 0%nat by lia.
          rewrite firstn_all2 by lia. simpl. apply app_nil_r.
        + rewrite skipn_app. replace (16 - length X)%nat with 0%nat by lia.
          rewrite skipn_all2 by lia. reflexivity.
      - assert (R = []) by (apply length_zero_iff_nil; lia).
        subst R. rewrite H, app_nil_r. split.
        + apply firstn_all2. lia.
        + apply skipn_all2. lia. }
    destruct Hf as [-> ->].
    unfold X. rewrite xor_bytes_involutive by (rewrite length_firstn, Hks; lia).
    unfold R. rewrite IH.
    + apply firstn_skipn.
    + rewrite Counter_block_incr_length. exact Hc.
    + rewrite length_skipn. lia.
Qed.

End Involution.

(** *** Reading back an envelope of the wire format *)

Section Parsing.

Variables salt ct mac : bytes.
Hypothesis salt_32 : length salt = 32%nat.
Hypothesis mac_32 : length mac = 32%nat.

Lemma raw_in_envelope : raw_in (header ++ salt ++ ct ++ mac) = salt ++ ct ++ mac.
Proof. unfold raw_in. apply slice_suffix. reflexivity. Qed.

Lemma salt_in_envelope : salt_in (header ++ salt ++ ct ++ mac) = salt.
Proof.
  unfold salt_in. rewrite raw_in_envelope. apply slice_prefix.
  unfold len. rewrite salt_32. reflexivity.
Qed.

Lemma mac_in_envelope : mac_in (header ++ salt ++ ct ++ mac) = mac.
Proof.
  unfold mac_in. rewrite raw_in_envelope, app_assoc.
  apply (slice_last (salt ++ ct) mac 32); [lia|]. unfold len. rewrite mac_32. reflexivity.
Qed.

Lemma ciphertext_in_envelope : ciphertext_in (header ++ salt ++ ct ++ mac) = ct.
Proof.
  unfold ciphertext_in. rewrite raw_in_envelope.
  apply (slice_middle salt ct mac 32 32); [| lia |]; unfold len.
  - rewrite salt_32. reflexivity.
  - rewrite mac_32. reflexivity.
Qed.

Lemma authenticated_in_envelope :
  authenticated_in (header ++ salt ++ ct ++ mac) = header ++ salt ++ ct.
Proof.
  unfold authenticated_in.
  replace (header ++ salt ++ ct ++ mac) with ((header ++ salt ++ ct) ++ mac)
    by (rewrite <- !app_assoc; reflexivity).
  apply (slice_drop_last (header ++ salt ++ ct) mac 32); [lia|]. unfold len. rewrite mac_32. reflexivity.
Qed.

Lemma envelope_length :
  len (header ++ salt ++ ct ++ mac) = 5 + 32 + len ct + 32.
Proof.
  unfold len. rewrite !length_app, salt_32, mac_32. simpl length. lia.
Qed.

Lemma envelope_prefix : wrong_prefix (header ++ salt ++ ct ++ mac) = false.
Proof.
  unfold wrong_prefix.
  change (header ++ salt ++ ct ++ mac)
    with ([x66; x73; x63] ++ ([x00; x02] ++ salt ++ ct ++ mac)).
  rewrite slice_prefix by reflexivity.
  rewrite bytes_eqb_refl. apply andb_false_r.
Qed.

End Parsing.

(** *** Sizes of what [encrypt] derives *)

Section Sizes.

Context {laws : CryptoLaws lib}.

Lemma salt_of_length (w : world) : length (salt_of w) = 32%nat.
Proof.
  pose proof (PBKDF2_length (next_draws w 32) [] 32 1 ltac:(lia) ltac:(lia)) as H.
  unfold salt_of. unfold len in H. lia.
Qed.

Lemma derived_length (kb salt : bytes) (count : Z) :
  0 < count -> length (derived kb salt count) = 64%nat.
Proof.
  intros Hc.
  pose proof (PBKDF2_length kb salt 64 count ltac:(lia) Hc) as H.
  unfold derived. unfold len in H. lia.
Qed.

Lemma cipher_key_length (kb salt : bytes) (count : Z) :
  0 < count -> length (cipher_key_of (derived kb salt count)) = 32%nat.
Proof.
  intros Hc. unfold cipher_key_of.
  rewrite slice_rest_length; unfold len; rewrite derived_length by exact Hc;
    [reflexivity | lia].
Qed.

Lemma counter_prefix_length (salt : bytes) :
  length salt = 32%nat -> length (slice salt None (Some 8)) = 8%nat.
Proof.
  intros Hs. rewrite slice_first_length; [reflexivity|].
  unfold len. lia.
Qed.

Lemma counter_of_block_length (salt : bytes) :
  length salt = 32%nat -> length (Counter_block (counter_of salt)) = 16%nat.
Proof.
  intros Hs. rewrite Counter_block_length.
  cbn [counter_of Counter_new ctr_prefix ctr_nbits].
  rewrite counter_prefix_length by exact Hs. reflexivity.
Qed.

Lemma ciphertext_of_length (kb : bytes) (count : Z) (salt p : bytes) :
  0 < count -> length salt = 32%nat ->
  length (ciphertext_of kb count salt p) = length p.
Proof.
  intros Hc Hs. unfold ciphertext_of. apply ctr_output_length.
  - intros block Hb. apply AES_block_length; [|exact Hb].
    apply cipher_key_length. exact Hc.
  - apply counter_of_block_length. exact Hs.
  - apply blocks_of_covers.
Qed.

Lemma mac_of_length (kb : bytes) (count : Z) (salt ct : bytes) :
  length (mac_of kb count salt ct) = 32%nat.
Proof.
  pose proof (HMAC_length (hmac_key_of (derived kb salt count))
                          (header ++ salt ++ ct) SHA256) as H.
  unfold mac_of. unfold len in H. cbn [digest_size] in H. lia.
Qed.

(** [decrypt] gives back what [encrypt] was given. *)
Lemma decrypt_envelope (key : value) (kb : bytes) (count : Z) (salt p : bytes)
      (w : world) :
  self w = configured key count ->
  truthy_value key = true ->
  value_bytes key = Ok kb ->
  0 < count ->
  len p <= 2 ^ 64 ->
  length salt = 32%nat ->
  decrypt (Bytes (envelope_of kb count salt p)) w =
  (Ok p, with_trace w (decrypt_events kb count (envelope_of kb count salt p))).
Proof.
  intros Hs Hk Hkb Hc Hlen Hsalt.
  pose proof (mac_of_length kb count salt (ciphertext_of kb count salt p)) as Hm.
  pose proof (ciphertext_of_length kb count salt p Hc Hsalt) as Hct.
  erewrite decrypt_checked; eauto.
  2:{ unfold envelope_of. cbn zeta. rewrite envelope_length by assumption.
      unfold len. lia. }
  2:{ apply envelope_prefix. }
  cbn zeta.
  assert (Hrec : recomputed_mac kb count (envelope_of kb count salt p)
                 = mac_of kb count salt (ciphertext_of kb count salt p)).
  { unfold recomputed_mac, envelope_of. cbn zeta.
    rewrite salt_in_envelope, authenticated_in_envelope by assumption.
    reflexivity. }
  assert (Hmac : mac_in (envelope_of kb count salt p)
                 = mac_of kb count salt (ciphertext_of kb count salt p)).
  { unfold envelope_of. cbn zeta. apply mac_in_envelope; assumption. }
  rewrite Hrec, Hmac, bytes_eqb_refl.
  assert (Hci : ciphertext_in (envelope_of kb count salt p)
                = ciphertext_of kb count salt p).
  { unfold envelope_of. cbn zeta. apply ciphertext_in_envelope; assumption. }
  assert (Hsi : salt_in (envelope_of kb count salt p) = salt).
  { unfold envelope_of. cbn zeta. apply salt_in_envelope; assumption. }
  rewrite ctr_blocks_run.
  2:{ cbn [ctr_value ctr_nbits counter_of Counter_new].
      unfold initial_value_default. apply blocks_of_bound.
      rewrite Hci, Hct. exact Hlen. }
  unfold decrypt_events. rewrite with_trace_app.
  f_equal. f_equal.
  rewrite Hci, Hsi, Hct. unfold ciphertext_of.
  apply ctr_output_involutive.
  - intros block Hb. apply AES_block_length; [|exact Hb].
    apply cipher_key_length. exact Hc.
  - apply counter_of_block_length. exact Hsalt.
  - apply blocks_of_covers.
Qed.

End Sizes.

End PublicRuns.

(* ================================================================= *)
(** ** The instance is only read *)

Lemma keeps_ret {A} (a : A) : keeps_self (ret a).
Proof. intros w. reflexivity. Qed.

Lemma keeps_raise {A} (e : exn) : keeps_self (@raise A e).
Proof. intros w. reflexivity. Qed.

Lemma keeps_lift {A} (r : result A) : keeps_self (lift r).
Proof. intros w. reflexivity. Qed.

Lemma keeps_attr {A} (f : SimpleCrypt -> A) : keeps_self (attr f).
Proof. intros w. reflexivity. Qed.

Lemma keeps_log (e : event) : keeps_self (log e).
Proof. intros w. reflexivity. Qed.

Lemma keeps_getrandbits8 : keeps_self getrandbits8.
Proof. intros w. reflexivity. Qed.

Lemma keeps_bind {A B} (m : M A) (k : A -> M B) :
  keeps_self m -> (forall a, keeps_self (k a)) -> keeps_self (bind m k).
Proof.
  intros Hm Hk w. unfold bind, world_of.
  specialize (Hm w). unfold world_of in Hm.
  destruct (m w) as [[a|e] w']; simpl in *.
  - rewrite <- Hm. apply Hk.
  - exact Hm.
Qed.

Ltac keeps_step :=
  match goal with
  | |- keeps_self (bind _ _) => apply keeps_bind; [|intros]
  | |- keeps_self (ret _) => apply keeps_ret
  | |- keeps_self (raise _) => apply keeps_raise
  | |- keeps_self (lift _) => apply keeps_lift
  | |- keeps_self (attr _) => apply keeps_attr
  | |- keeps_self (log _) => apply keeps_log
  | |- keeps_self getrandbits8 => apply keeps_getrandbits8
  | |- keeps_self (if ?c then _ else _) => destruct c
  | |- keeps_self (match ?x with _ => _ end) => destruct x
  end.

Section Frame.

Context {lib : CryptoLib}.

Lemma keeps_ctr_blocks (key : bytes) (n : nat) (c : Counter) (data : bytes) :
  keeps_self (ctr_blocks key n c data).
Proof.
  revert c data. induction n as [|n IH]; intros c data; cbn [ctr_blocks].
  - apply keeps_ret.
  - unfold AES_block. repeat keeps_step. apply IH.
Qed.

Lemma keeps_getrandbytes (n : nat) : keeps_self (getrandbytes n).
Proof.
  induction n as [|n IH]; cbn [getrandbytes]; repeat keeps_step. exact IH.
Qed.

Lemma keeps__str_to_bytes (v : value) : keeps_self (_str_to_bytes v).
Proof. unfold _str_to_bytes. repeat keeps_step. Qed.

Lemma keeps__hmac (key data : bytes) : keeps_self (_hmac key data).
Proof. unfold _hmac. repeat keeps_step. Qed.

Lemma keeps__pbkdf2 (password salt : bytes) (n : Z) (count : option Z) :
  keeps_self (_pbkdf2 password salt n count).
Proof. unfold _pbkdf2. repeat keeps_step. Qed.

Lemma keeps__random_bytes (n : Z) : keeps_self (_random_bytes n).
Proof.
  unfold _random_bytes, _hide. repeat keeps_step.
  - apply keeps_getrandbytes.
  - apply keeps__pbkdf2.
Qed.

Lemma keeps__expand_keys (password : option value) (salt : bytes)
      (count : option Z) :
  keeps_self (_expand_keys password salt count).
Proof.
  unfold _expand_keys. repeat keeps_step;
    first [apply keeps__str_to_bytes | apply keeps__pbkdf2].
Qed.

Lemma keeps__assert_hmac (key hmac hmac2 : bytes) :
  keeps_self (_assert_hmac key hmac hmac2).
Proof. unfold _assert_hmac. repeat keeps_step; apply keeps__hmac. Qed.

Lemma keeps_encrypt (data : value) : keeps_self (encrypt data).
Proof.
  unfold encrypt, _assert_encrypt_length, cipher_encrypt.
  repeat keeps_step;
    first [ apply keeps__str_to_bytes | apply keeps__random_bytes
          | apply keeps__expand_keys | apply keeps_ctr_blocks
          | apply keeps__hmac ].
Qed.

Lemma keeps_decrypt (data : value) : keeps_self (decrypt data).
Proof.
  unfold decrypt, _assert_not_unicode, _assert_header_prefix,
    _assert_decrypt_length, cipher_decrypt.
  repeat keeps_step;
    first [ apply keeps__expand_keys | apply keeps_ctr_blocks
          | apply keeps__hmac | apply keeps__assert_hmac ].
Qed.

End Frame.

(* ================================================================= *)
(** ** A text key and its UTF-8 bytes *)

Section TextKey.

Variable k : text.
Variable kb : bytes.
Hypothesis k_encodes : encode_utf8 k = Ok kb.

Lemma agrees_ret {A} (a : A) : agrees k kb (ret a) (ret a).
Proof. intros w Hw. split; [reflexivity|exact Hw]. Qed.

Lemma agrees_raise {A} (e : exn) : agrees k kb (@raise A e) (raise e).
Proof. intros w Hw. split; [reflexivity|exact Hw]. Qed.

Lemma agrees_lift {A} (r : result A) : agrees k kb (lift r) (lift r).
Proof. intros w Hw. split; [reflexivity|exact Hw]. Qed.

Lemma agrees_log (e : event) : agrees k kb (log e) (log e).
Proof. intros w Hw. split; [reflexivity|exact Hw]. Qed.

Lemma agrees_getrandbits8 : agrees k kb getrandbits8 getrandbits8.
Proof. intros w Hw. split; [reflexivity|exact Hw]. Qed.

Lemma agrees_attr {A} (f : SimpleCrypt -> A) :
  (forall s, f (rekey (Bytes kb) s) = f s) -> agrees k kb (attr f) (attr f).
Proof.
  intros Hf w Hw. split; [|exact Hw].
  unfold attr, result_of, world_of. simpl. rewrite Hf. reflexivity.
Qed.

Lemma agrees_bind {A B} (m1 m2 : M A) (k1 k2 : A -> M B) :
  agrees k kb m1 m2 -> (forall a, agrees k kb (k1 a) (k2 a)) ->
  agrees k kb (bind m1 k1) (bind m2 k2).
Proof.
  intros Hm Hk w Hw. destruct (Hm w Hw) as [E Hw'].
  unfold bind. rewrite E. unfold result_of, world_of in *.
  destruct (m1 w) as [[a|e] w']; simpl in *.
  - apply Hk. exact Hw'.
  - split; [reflexivity|exact Hw'].
Qed.

(** Where the key is read, the two runs part: one finds the text, the
    other its bytes. *)
Lemma agrees_key {B} (K : option value -> M B) :
  agrees k kb (K (Some (Str k))) (K (Some (Bytes kb))) ->
  agrees k kb (bind (attr FSC_KEY) K) (bind (attr FSC_KEY) K).
Proof.
  intros HK w Hw. unfold bind, attr. simpl. rewrite Hw. apply HK. exact Hw.
Qed.

Ltac agrees_step :=
  match goal with
  | |- agrees _ _ (bind (attr FSC_KEY) _) _ => apply agrees_key
  | |- agrees _ _ (bind _ _) _ => apply agrees_bind; [|intros]
  | |- agrees _ _ (ret _) _ => apply agrees_ret
  | |- agrees _ _ (raise _) _ => apply agrees_raise
  | |- agrees _ _ (lift _) _ => apply agrees_lift
  | |- agrees _ _ (attr _) _ => apply agrees_attr; intros; reflexivity
  | |- agrees _ _ (log _) _ => apply agrees_log
  | |- agrees _ _ getrandbits8 _ => apply agrees_getrandbits8
  | |- agrees _ _ (if ?c then _ else _) _ => destruct c
  | |- agrees _ _ (match ?x with _ => _ end) _ => destruct x
  end.

Context {lib : CryptoLib}.

Lemma agrees_ctr_blocks (key : bytes) (n : nat) (c : Counter) (data : bytes) :
  agrees k kb (ctr_blocks key n c data) (ctr_blocks key n c data).
Proof.
  revert c data. induction n as [|n IH]; intros c data; cbn [ctr_blocks].
  - apply agrees_ret.
  - unfold AES_block. repeat agrees_step. apply IH.
Qed.

Lemma agrees_getrandbytes (n : nat) :
  agrees k kb (getrandbytes n) (getrandbytes n).
Proof.
  induction n as [|n IH]; cbn [getrandbytes]; repeat agrees_step. exact IH.
Qed.

Lemma agrees__str_to_bytes (v : value) :
  agrees k kb (_str_to_bytes v) (_str_to_bytes v).
Proof. unfold _str_to_bytes. repeat agrees_step. Qed.

Lemma agrees__hmac (key data : bytes) :
  agrees k kb (_hmac key data) (_hmac key data).
Proof. unfold _hmac. repeat agrees_step. Qed.

Lemma agrees__pbkdf2 (password salt : bytes) (n : Z) (count : option Z) :
  agrees k kb (_pbkdf2 password salt n count) (_pbkdf2 password salt n count).
Proof. unfold _pbkdf2. repeat agrees_step. Qed.

Lemma agrees__random_bytes (n : Z) :
  agrees k kb (_random_bytes n) (_random_bytes n).
Proof.
  unfold _random_bytes, _hide. repeat agrees_step.
  - apply agrees_getrandbytes.
  - apply agrees__pbkdf2.
Qed.

Lemma agrees__assert_hmac (key hmac hmac2 : bytes) :
  agrees k kb (_assert_hmac key hmac hmac2) (_assert_hmac key hmac hmac2).
Proof. unfold _assert_hmac. repeat agrees_step; apply agrees__hmac. Qed.

(** Key expansion turns the text into the same bytes before it derives. *)
Lemma agrees__expand_keys (salt : bytes) (count : option Z) :
  agrees k kb (_expand_keys (Some (Str k)) salt count)
              (_expand_keys (Some (Bytes kb)) salt count).
Proof.
  unfold _expand_keys.
  destruct (negb (truthy salt)); [apply agrees_raise|].
  cbn [truthy_value]. rewrite (encode_utf8_truthy k kb k_encodes).
  destruct (negb (truthy k)); [apply agrees_raise|].
  apply agrees_bind; [apply agrees_attr; intros; reflexivity|intros akl].
  unfold _str_to_bytes. rewrite k_encodes.
  change (lift (Ok kb)) with (ret kb).
  apply agrees_bind; [apply agrees_ret|intros pw].
  apply agrees_bind; [apply agrees__pbkdf2|intros keys].
  apply agrees_ret.
Qed.

Lemma agrees_encrypt (data : value) : agrees k kb (encrypt data) (encrypt data).
Proof.
  unfold encrypt, _assert_encrypt_length, cipher_encrypt.
  repeat agrees_step;
    first [ apply agrees__str_to_bytes | apply agrees__random_bytes
          | apply agrees__expand_keys | apply agrees_ctr_blocks
          | apply agrees__hmac ].
Qed.

Lemma agrees_decrypt (data : value) : agrees k kb (decrypt data) (decrypt data).
Proof.
  unfold decrypt, _assert_not_unicode, _assert_header_prefix,
    _assert_decrypt_length, cipher_decrypt.
  repeat agrees_step;
    first [ apply agrees__expand_keys | apply agrees_ctr_blocks
          | apply agrees__hmac | apply agrees__assert_hmac ].
Qed.

End TextKey.

(* ================================================================= *)
(** ** Construction, and the example library *)

(** An instance that [__init__] built from an application is [configured]
    with a key that is not empty. *)
Lemma init_gives_configured (app : App) (w0 w : world) :
  __init__ (Some app) w0 = (Ok tt, w) ->
  exists key,
    config_SECRET_KEY app = Some key /\ truthy_value key = true /\
    self w = configured key
               match config_FSC_EXPANSION_COUNT app with
               | Some c => c
               | None => 10000
               end.
Proof.
  unfold __init__, init_app, bind, set_self, attr, raise. simpl.
  destruct (config_SECRET_KEY app) as [key|]; [|discriminate].
  destruct (truthy_value key) eqn:Hk; simpl; [|discriminate].
  intros H. inversion H. subst w. clear H. exists key.
  split; [reflexivity|]. split; [exact Hk|].
  simpl. unfold configured.
  destruct (config_FSC_EXPANSION_COUNT app); reflexivity.
Qed.

(** The instance the examples run on is the one [__init__] builds from
    [Example.app]. *)
Example init_example :
  __init__ (Some Example.app) (Example.fresh (configured (Bytes []) 0))
  = (Ok tt, Example.fresh (configured Example.key_bytes 1000)).
Proof. reflexivity. Qed.

(** The scenario of the specification: [b"hello world"] gives an envelope
    of 5 + 32 + 11 + 32 = 80 bytes that starts with [b"fsc\x00\x02"]. *)
Example envelope_example :
  len Example.envelope = 80 /\
  firstn 5 Example.envelope = [x66; x73; x63; x00; x02].
Proof. split; vm_compute; reflexivity. Qed.

Lemma fit_length (n : nat) (l : bytes) : length (Example.fit n l) = n.
Proof.
  unfold Example.fit. rewrite length_firstn, length_app, repeat_length. lia.
Qed.

Lemma toy_laws : CryptoLaws Example.toy.
Proof.
  constructor; simpl.
  - intros key block _ Hb. unfold Example.toy_AES.
    rewrite xor_bytes_length, fit_length, Hb. reflexivity.
  - intros key msg h. unfold Example.toy_HMAC, len.
    rewrite fit_length. destruct h. reflexivity.
  - intros password salt dkLen count Hd _. unfold Example.toy_PBKDF2, len.
    rewrite fit_length. lia.
Qed.

(* ================================================================= *)
(** ** The counter blocks of a run *)

Lemma AES_inputs_ctr_events {lib : CryptoLib} (key pre : bytes) (n : nat) (v : Z) :
  AES_inputs (ctr_events key n
                {| ctr_nbits := 64; ctr_prefix := pre; ctr_value := v |})
  = map (counter_block_at pre v) (seq 0 n).
Proof.
  revert v. induction n as [|n IH]; intros v.
  - reflexivity.
  - cbn [ctr_events AES_inputs seq map]. f_equal.
    + unfold Counter_block, counter_block_at. cbn [ctr_prefix ctr_nbits ctr_value].
      rewrite Z.add_0_r. reflexivity.
    + unfold Counter_incr. cbn [ctr_prefix ctr_nbits ctr_value].
      rewrite IH, <- seq_shift, map_map. apply map_ext. intros i.
      unfold counter_block_at. do 2 f_equal. lia.
Qed.

Lemma ctr_blocks_inv {lib : CryptoLib} (key : bytes) (n : nat) (c : Counter)
      (data out : bytes) (w w' : world) :
  ctr_blocks key n c data w = (Ok out, w') ->
  w' = with_trace w (ctr_events key n c).
Proof.
  revert c data out w w'. induction n as [|n IH]; intros c data out w w'.
  - cbn [ctr_blocks ctr_events]. unfold ret. intros H. inversion H.
    symmetry. apply with_trace_nil.
  - cbn [ctr_blocks ctr_events]. unfold bind at 1, lift, Counter_call.
    destruct (2 ^ ctr_nbits c <=? ctr_value c); [discriminate|].
    cbn [fst snd]. unfold bind at 1, AES_block. unfold bind at 1.
    rewrite log_run_eq. unfold ret at 1. unfold bind at 1.
    destruct (ctr_blocks key n (Counter_incr c) _ _) as [[rest|e] w1] eqn:E;
      [|discriminate].
    apply IH in E. unfold ret. intros H. inversion H. subst.
    apply with_trace_app.
Qed.

(* ================================================================= *)
(** ** The properties of the two public operations *)

(** C1 (round trip).  On an instance configured with a secret key that is
    not empty and a positive expansion count, for every plaintext [p] of
    at most [2^64] bytes and whatever the random source gives for the
    salt, [encrypt] returns an envelope and [decrypt] of that envelope,
    under the same key and count, returns [p]. *)
Theorem roundtrip {lib : CryptoLib} {laws : CryptoLaws lib}
        (key : value) (kb : bytes) (count : Z) (p : bytes) (w : world) :
  self w = configured key count ->
  truthy_value key = true ->
  value_bytes key = Ok kb ->
  0 < count ->
  len p <= 2 ^ 64 ->
  exists env w',
    encrypt (Bytes p) w = (Ok env, w') /\
    result_of (decrypt (Bytes env) w') = Ok p.
Proof.
  intros Hs Hk Hkb Hc Hlen.
  pose proof (salt_of_length w) as Hsalt.
  eexists. eexists. split.
  - apply (encrypt_run key kb count p w Hs Hk Hkb Hlen).
    eapply truthy_of_length. exact Hsalt.
  - erewrite decrypt_envelope; eauto.
Qed.

Lemma roundtrip_witness :
  exists env w',
    encrypt (lib := Example.toy) (Bytes Example.hello_world)
            (Example.fresh (configured Example.key_bytes 1000)) = (Ok env, w') /\
    result_of (decrypt (lib := Example.toy) (Bytes env) w')
    = Ok Example.hello_world.
Proof.
  apply (roundtrip (laws := toy_laws) Example.key_bytes [x6b; x65; x79] 1000
                   Example.hello_world
                   (Example.fresh (configured Example.key_bytes 1000)));
    [reflexivity | reflexivity | reflexivity | lia | vm_compute; discriminate].
Defined.





(** C3, as the code has it.  The prefix check comes first.  A bytes input
    shorter than 69 bytes raises "Missing data." when it is shorter than
    three bytes or starts with the magic prefix, and the bad-header error
    when it has three bytes or more that are not the prefix; either way
    nothing was derived or computed. *)
Theorem short_input_error {lib : CryptoLib}
        (key : value) (count : Z) (data : bytes) (w : world) :
  self w = configured key count ->
  len data < 69 ->
  decrypt (Bytes data) w =
  (Raise (if wrong_prefix data then bad_header else missing_data), w).
Proof. apply decrypt_short. Qed.

Lemma short_input_error_witness :
  decrypt (lib := Example.toy) (Bytes [])
          (Example.fresh (configured Example.key_bytes 1000))
  = (Raise missing_data, Example.fresh (configured Example.key_bytes 1000)).
Proof.
  apply (short_input_error (lib := Example.toy) Example.key_bytes 1000 []
           (Example.fresh (configured Example.key_bytes 1000)));
    [reflexivity | vm_compute; reflexivity].
Defined.

(** C3 as stated fails: [b"abc"] is shorter than 69 bytes, and [decrypt]
    raises the bad-header error, not "Missing data.". *)
Lemma short_input_bad_header :
  len [x61; x62; x63] < 69 /\
  result_of (decrypt (lib := Example.toy) (Bytes [x61; x62; x63])
               (Example.fresh (configured Example.key_bytes 1000)))
  = Raise bad_header /\
  result_of (decrypt (lib := Example.toy) (Bytes [x61; x62; x63])
               (Example.fresh (configured Example.key_bytes 1000)))
  <> Raise missing_data.
Proof.
  split; [vm_compute; reflexivity|].
  split; [reflexivity|]. vm_compute. discriminate.
Qed.

(** *** Counter mode, byte by byte *)

Lemma xor_byte_lxor (a b : byte) :
  Strings.Byte.to_N (xor_byte a b)
  = N.lxor (Strings.Byte.to_N a) (Strings.Byte.to_N b).
Proof. destruct a; destruct b; reflexivity. Qed.

Lemma nth_xor_bytes (d k : bytes) (i : nat) :
  (i < length d)%nat -> (i < length k)%nat ->
  nth i (xor_bytes d k) x00 = xor_byte (nth i d x00) (nth i k x00).
Proof.
  revert k i. induction d as [|x d IH]; intros [|y k] i Hd Hk; simpl in *;
    try lia.
  destruct i as [|i]; [reflexivity|]. apply IH; lia.
Qed.

Lemma nth_ctr_output {lib : CryptoLib} (key pre : bytes) (n : nat) (v : Z)
      (data : bytes) (i : nat) :
  (forall block : bytes,
     length block = 16%nat -> length (AES_encrypt_block key block) = 16%nat) ->
  length pre = 8%nat ->
  (length data <= 16 * n)%nat ->
  (i < length data)%nat ->
  nth i (ctr_output key n
           {| ctr_nbits := 64; ctr_prefix := pre; ctr_value := v |} data) x00
  = xor_byte (nth i data x00)
      (nth (i mod 16)
           (AES_encrypt_block key (counter_block_at pre v (i / 16))) x00).
Proof.
  intros Hblock Hpre. revert v data i.
  induction n as [|n IH]; intros v data i Hd Hi; [lia|].
  cbn [ctr_output]. change (Z.to_nat AES_block_size) with 16%nat.
  set (c := {| ctr_nbits := 64; ctr_prefix := pre; ctr_value := v |}).
  assert (Hc : length (Counter_block c) = 16%nat).
  { rewrite Counter_block_length. cbn [c ctr_prefix ctr_nbits].
    rewrite Hpre. reflexivity. }
  assert (Hks : length (AES_encrypt_block key (Counter_block c)) = 16%nat)
    by (apply Hblock; exact Hc).
  assert (Hblk : Counter_block c = counter_block_at pre v 0).
  { unfold Counter_block, counter_block_at. cbn [c ctr_prefix ctr_nbits ctr_value].
    rewrite Z.add_0_r. reflexivity. }
  destruct (Nat.lt_ge_cases i 16) as [Hlt|Hge].
  - rewrite app_nth1
      by (rewrite xor_bytes_length, length_firstn, Hks; lia).
    rewrite nth_xor_bytes by (rewrite ?length_firstn, ?Hks; lia).
    rewrite nth_firstn.
    destruct (i <? 16)%nat eqn:E; [|apply Nat.ltb_ge in E; lia].
    rewrite Nat.mod_small, Nat.div_small by exact Hlt.
    rewrite Hblk. reflexivity.
  - rewrite app_nth2
      by (rewrite xor_bytes_length, length_firstn, Hks; lia).
    rewrite xor_bytes_length, length_firstn, Hks.
    replace (Nat.min (Nat.min 16 (length data)) 16) with 16%nat by lia.
    unfold Counter_incr. cbn [c ctr_prefix ctr_nbits ctr_value].
    rewrite IH by (rewrite length_skipn; lia).
    rewrite nth_skipn.
    replace (16 + (i - 16))%nat with i by lia.
    assert (Hm : (i mod 16 = (i - 16) mod 16)%nat).
    { replace i with ((i - 16) + 1 * 16)%nat at 1 by lia.
      apply Nat.Div0.mod_add. }
    assert (Hq : (i / 16 = (i - 16) / 16 + 1)%nat).
    { replace i with ((i - 16) + 1 * 16)%nat at 1 by lia.
      apply Nat.div_add. lia. }
    rewrite Hm, Hq.
    do 3 f_equal. unfold counter_block_at. do 2 f_equal. lia.
Qed.

(** C5 (wire format).  Under the conditions of the round trip, [encrypt]
    of an [n]-byte plaintext returns the header [b"fsc\x00\x02"], the
    32-byte salt, a ciphertext of exactly [n] bytes and a 32-byte MAC, in
    that order: [69 + n] bytes in all.  The ciphertext is the plaintext
    combined byte by byte, by exclusive or, with the key stream of the
    derived cipher key (no padding), and the MAC is the HMAC of header,
    salt and ciphertext under the derived MAC key. *)
Theorem envelope_wire_format {lib : CryptoLib} {laws : CryptoLaws lib}
        (key : value) (kb : bytes) (count : Z) (p : bytes) (w : world) :
  self w = configured key count ->
  truthy_value key = true ->
  value_bytes key = Ok kb ->
  0 < count ->
  len p <= 2 ^ 64 ->
  exists salt ct mac w',
    encrypt (Bytes p) w
    = (Ok ([x66; x73; x63; x00; x02] ++ salt ++ ct ++ mac), w') /\
    salt = salt_of w /\
    len salt = 32 /\ len ct = len p /\ len mac = 32 /\
    len ([x66; x73; x63; x00; x02] ++ salt ++ ct ++ mac) = 69 + len p /\
    (forall i, (i < length p)%nat ->
       Strings.Byte.to_N (nth i ct x00)
       = N.lxor (Strings.Byte.to_N (nth i p x00))
                (Strings.Byte.to_N
                   (keystream_byte (cipher_key_of (derived kb salt count))
                                   (slice salt None (Some 8)) i))) /\
    mac = HMAC_digest (hmac_key_of (derived kb salt count))
                      ([x66; x73; x63; x00; x02] ++ salt ++ ct) SHA256.
Proof.
  intros Hs Hk Hkb Hc Hlen.
  pose proof (salt_of_length w) as Hsalt.
  pose proof (ciphertext_of_length kb count (salt_of w) p Hc Hsalt) as Hct.
  pose proof (mac_of_length kb count (salt_of w)
                (ciphertext_of kb count (salt_of w) p)) as Hmac.
  exists (salt_of w), (ciphertext_of kb count (salt_of w) p),
    (mac_of kb count (salt_of w) (ciphertext_of kb count (salt_of w) p)).
  eexists. split.
  - apply (encrypt_run key kb count p w Hs Hk Hkb Hlen).
    eapply truthy_of_length. exact Hsalt.
  - split; [reflexivity|].
    unfold len. rewrite !length_app, Hsalt, Hct, Hmac. simpl length.
    repeat (split; [lia|]).
    split; [|reflexivity].
    intros i Hi. rewrite <- xor_byte_lxor. f_equal.
    unfold ciphertext_of, counter_of, Counter_new, initial_value_default,
      keystream_byte.
    apply nth_ctr_output.
    + intros block Hb. apply AES_block_length; [|exact Hb].
      apply cipher_key_length. exact Hc.
    + apply counter_prefix_length. exact Hsalt.
    + apply blocks_of_covers.
    + exact Hi.
Qed.

Lemma envelope_wire_format_witness :
  exists salt ct mac w',
    encrypt (lib := Example.toy) (Bytes Example.hello_world)
            (Example.fresh (configured Example.key_bytes 1000))
    = (Ok ([x66; x73; x63; x00; x02] ++ salt ++ ct ++ mac), w') /\
    salt = salt_of (lib := Example.toy)
             (Example.fresh (configured Example.key_bytes 1000)) /\
    len salt = 32 /\ len ct = len Example.hello_world /\ len mac = 32 /\
    len ([x66; x73; x63; x00; x02] ++ salt ++ ct ++ mac)
    = 69 + len Example.hello_world /\
    (forall i, (i < length Example.hello_world)%nat ->
       Strings.Byte.to_N (nth i ct x00)
       = N.lxor (Strings.Byte.to_N (nth i Example.hello_world x00))
                (Strings.Byte.to_N
                   (keystream_byte (lib := Example.toy)
                      (cipher_key_of
                         (derived (lib := Example.toy) [x6b; x65; x79] salt 1000))
                      (slice salt None (Some 8)) i))) /\
    mac = HMAC_digest (CryptoLib := Example.toy)
            (hmac_key_of (derived (lib := Example.toy) [x6b; x65; x79] salt 1000))
            ([x66; x73; x63; x00; x02] ++ salt ++ ct) SHA256.
Proof.
  apply (envelope_wire_format (laws := toy_laws)
           Example.key_bytes [x6b; x65; x79] 1000 Example.hello_world
           (Example.fresh (configured Example.key_bytes 1000)));
    [reflexivity | reflexivity | reflexivity | lia | vm_compute; discriminate].
Defined.

(** C6, as the code has it.  In [encrypt] and in [decrypt] the blocks
    given to the block cipher are, for block [i = 0, 1, ...], the first 8
    bytes of the salt (the high-order half) followed by the 64-bit
    big-endian value [1 + i] (the low-order half): the counter increments
    per block and starts at one, the initial value of [Counter.new] that
    neither call site overrides. *)
Theorem counter_blocks {lib : CryptoLib} {laws : CryptoLaws lib}
        (key : value) (kb : bytes) (count : Z) (p : bytes) (w : world)
        (data pt : bytes) (w0 w2 : world) :
  self w = configured key count ->
  self w0 = configured key count ->
  truthy_value key = true ->
  value_bytes key = Ok kb ->
  0 < count ->
  len p <= 2 ^ 64 ->
  decrypt (Bytes data) w0 = (Ok pt, w2) ->
  (exists env w1,
     encrypt (Bytes p) w = (Ok env, w1) /\
     length (slice (salt_of w) None (Some 8)) = 8%nat /\
     AES_inputs (trace w1)
     = AES_inputs (trace w)
       ++ map (counter_block_at (slice (salt_of w) None (Some 8)) 1)
              (seq 0 (blocks_of (length p)))) /\
  length (slice (salt_in data) None (Some 8)) = 8%nat /\
  AES_inputs (trace w2)
  = AES_inputs (trace w0)
    ++ map (counter_block_at (slice (salt_in data) None (Some 8)) 1)
           (seq 0 (blocks_of (length (ciphertext_in data)))).
Proof.
  intros Hs Hs0 Hk Hkb Hc Hlen Hdec.
  pose proof (salt_of_length w) as Hsalt.
  split.
  - eexists. eexists. split.
    + apply (encrypt_run key kb count p w Hs Hk Hkb Hlen).
      eapply truthy_of_length. exact Hsalt.
    + split; [apply counter_prefix_length; exact Hsalt|].
      cbn [trace with_trace after_draws]. unfold encrypt_events.
      rewrite !AES_inputs_app, AES_inputs_draws.
      cbn [AES_inputs app]. rewrite !app_nil_r.
      unfold counter_of, Counter_new, initial_value_default.
      rewrite AES_inputs_ctr_events. reflexivity.
  - destruct (wrong_prefix data) eqn:Hp.
    { rewrite (decrypt_wrong_prefix key count data w0 Hs0 Hp) in Hdec.
      discriminate. }
    destruct (Z.lt_ge_cases (len data) 69) as [Hlt|Hge].
    { rewrite (decrypt_short key count data w0 Hs0 Hlt) in Hdec.
      discriminate. }
    split; [apply counter_prefix_length, salt_in_length; exact Hge|].
    rewrite (decrypt_checked key kb count data w0 Hs0 Hk Hkb Hge Hp) in Hdec.
    cbn zeta in Hdec.
    destruct (bytes_eqb _ _); [|discriminate].
    apply ctr_blocks_inv in Hdec. subst w2.
    cbn [trace with_trace]. rewrite <- app_assoc.
    rewrite !AES_inputs_app. cbn [verify_events AES_inputs app].
    unfold counter_of, Counter_new, initial_value_default.
    rewrite AES_inputs_ctr_events. reflexivity.
Qed.

Lemma counter_blocks_witness :
  (exists env w1,
     encrypt (lib := Example.toy) (Bytes Example.hello_world)
             (Example.fresh (configured Example.key_bytes 1000))
     = (Ok env, w1) /\
     length (slice (salt_of (lib := Example.toy)
                      (Example.fresh (configured Example.key_bytes 1000)))
                   None (Some 8)) = 8%nat /\
     AES_inputs (trace w1)
     = [] ++ map (counter_block_at
                    (slice (salt_of (lib := Example.toy)
                              (Example.fresh (configured Example.key_bytes 1000)))
                           None (Some 8)) 1)
                 (seq 0 (blocks_of (length Example.hello_world)))) /\
  length (slice (salt_in Example.envelope) None (Some 8)) = 8%nat /\
  AES_inputs (trace (world_of (decrypt (lib := Example.toy)
                                 (Bytes Example.envelope)
                                 (Example.fresh
                                    (configured Example.key_bytes 1000)))))
  = [] ++ map (counter_block_at (slice (salt_in Example.envelope) None (Some 8)) 1)
              (seq 0 (blocks_of (length (ciphertext_in Example.envelope)))).
Proof.
  apply (counter_blocks (laws := toy_laws)
           Example.key_bytes [x6b; x65; x79] 1000 Example.hello_world
           (Example.fresh (configured Example.key_bytes 1000))
           Example.envelope Example.hello_world
           (Example.fresh (configured Example.key_bytes 1000))
           (world_of (decrypt (lib := Example.toy) (Bytes Example.envelope)
                        (Example.fresh (configured Example.key_bytes 1000)))));
    [ reflexivity | reflexivity | reflexivity | reflexivity | lia
    | vm_compute; discriminate | vm_compute; reflexivity ].
Defined.

(** C6 as stated fails: in the run of [encrypt] on [b"hello world"] the
    one block given to the block cipher ends in the 64-bit value one, not
    zero. *)
Lemma counter_starts_at_one :
  exists blk,
    AES_inputs (trace (world_of (encrypt (lib := Example.toy)
                                   (Bytes Example.hello_world)
                                   (Example.fresh
                                      (configured Example.key_bytes 1000)))))
    = [blk] /\
    skipn 8 blk = long_to_bytes 8 1 /\
    skipn 8 blk <> long_to_bytes 8 0.
Proof.
  eexists. split; [vm_compute; reflexivity|].
  split; [reflexivity|]. vm_compute. discriminate.
Qed.

(** C7 (text is refused).  For every text value, [decrypt] raises the
    usage error at once: the world is as it was, so nothing was read from
    the input and no key, MAC or cipher work was done, whatever bytes the
    text would encode to. *)
Theorem decrypt_rejects_text {lib : CryptoLib} (s : text) (w : world) :
  decrypt (Str s) w = (Raise not_bytes, w).
Proof. reflexivity. Qed.

(** C8 (the configuration is only read).  Whatever they are given and
    whether they return or raise, [encrypt] and [decrypt] leave every
    attribute of the instance as it was. *)
Theorem configuration_unchanged {lib : CryptoLib} (data : value) (w : world) :
  self (world_of (encrypt data w)) = self w /\
  self (world_of (decrypt data w)) = self w.
Proof. split; [apply keeps_encrypt | apply keeps_decrypt]. Qed.

(** C9 (text plaintext).  A text that encodes to the bytes [b] is
    encrypted exactly as [b] is: same result, same calls, same draws; and
    [decrypt] of the envelope returns the bytes [b]. *)
Theorem encrypt_text_as_utf8 {lib : CryptoLib} {laws : CryptoLaws lib}
        (key : value) (kb : bytes) (count : Z) (s : text) (b : bytes)
        (w : world) :
  self w = configured key count ->
  truthy_value key = true ->
  value_bytes key = Ok kb ->
  0 < count ->
  encode_utf8 s = Ok b ->
  len b <= 2 ^ 64 ->
  encrypt (Str s) w = encrypt (Bytes b) w /\
  exists env w',
    encrypt (Str s) w = (Ok env, w') /\
    result_of (decrypt (Bytes env) w') = Ok b.
Proof.
  intros Hs Hk Hkb Hc Hb Hlen.
  assert (E : encrypt (Str s) w = encrypt (Bytes b) w).
  { unfold encrypt, bind. rewrite !_str_to_bytes_run. cbn [value_bytes].
    rewrite Hb. reflexivity. }
  split; [exact E|]. rewrite E.
  pose proof (salt_of_length w) as Hsalt.
  eexists. eexists. split.
  - apply (encrypt_run key kb count b w Hs Hk Hkb Hlen).
    eapply truthy_of_length. exact Hsalt.
  - erewrite decrypt_envelope; eauto.
Qed.

Lemma encrypt_text_as_utf8_witness :
  encrypt (lib := Example.toy) (Str Example.text_he)
          (Example.fresh (configured Example.key_bytes 1000))
  = encrypt (lib := Example.toy) (Bytes [x68; xc3; xa9])
            (Example.fresh (configured Example.key_bytes 1000)) /\
  exists env w',
    encrypt (lib := Example.toy) (Str Example.text_he)
            (Example.fresh (configured Example.key_bytes 1000))
    = (Ok env, w') /\
    result_of (decrypt (lib := Example.toy) (Bytes env) w')
    = Ok [x68; xc3; xa9].
Proof.
  apply (encrypt_text_as_utf8 (laws := toy_laws)
           Example.key_bytes [x6b; x65; x79] 1000 Example.text_he
           [x68; xc3; xa9]
           (Example.fresh (configured Example.key_bytes 1000)));
    [ reflexivity | reflexivity | reflexivity | lia | reflexivity
    | vm_compute; discriminate ].
Defined.

(** C10 (text key).  With a text key that encodes to the bytes [kb],
    [encrypt] and [decrypt] do on every input what they do with the bytes
    key [kb]: same result or same exception, same calls into the library,
    and final states that differ in the key alone. *)
Theorem text_key_as_utf8 {lib : CryptoLib}
        (k : text) (kb : bytes) (data : value) (w : world) :
  encode_utf8 k = Ok kb ->
  FSC_KEY (self w) = Some (Str k) ->
  encrypt data (rekey_world (Bytes kb) w)
  = (result_of (encrypt data w),
     rekey_world (Bytes kb) (world_of (encrypt data w))) /\
  decrypt data (rekey_world (Bytes kb) w)
  = (result_of (decrypt data w),
     rekey_world (Bytes kb) (world_of (decrypt data w))).
Proof.
  intros Hk Hw. split.
  - apply (agrees_encrypt k kb Hk data w Hw).
  - apply (agrees_decrypt k kb Hk data w Hw).
Qed.

Lemma text_key_as_utf8_witness :
  encrypt (lib := Example.toy) (Bytes Example.envelope)
          (rekey_world Example.key_bytes
             (Example.fresh (configured Example.key_text 1000)))
  = (result_of (encrypt (lib := Example.toy) (Bytes Example.envelope)
                  (Example.fresh (configured Example.key_text 1000))),
     rekey_world Example.key_bytes
       (world_of (encrypt (lib := Example.toy) (Bytes Example.envelope)
                    (Example.fresh (configured Example.key_text 1000))))) /\
  decrypt (lib := Example.toy) (Bytes Example.envelope)
          (rekey_world Example.key_bytes
             (Example.fresh (configured Example.key_text 1000)))
  = (result_of (decrypt (lib := Example.toy) (Bytes Example.envelope)
                  (Example.fresh (configured Example.key_text 1000))),
     rekey_world Example.key_bytes
       (world_of (decrypt (lib := Example.toy) (Bytes Example.envelope)
                    (Example.fresh (configured Example.key_text 1000))))).
Proof.
  apply (text_key_as_utf8 (lib := Example.toy)
           [107%N; 101%N; 121%N] [x6b; x65; x79] (Bytes Example.envelope)
           (Example.fresh (configured Example.key_text 1000)));
    reflexivity.
Defined.

(* ================================================================= *)
(** ** Construction *)

(** X1.  When the application has no secret key, or an empty one,
    [init_app] raises [RuntimeError].  The expansion count was assigned
    before the key was tested: the instance keeps the key it had and has
    the new count. *)
Theorem init_rejects_missing_key (app : App) (w : world) :
  has_key app = false ->
  init_app app w
  = (Raise (RuntimeError "flask-simple-crypt requires the usage of SECRET_KEY"),
     recount_world (configured_count app) w).
Proof.
  intros H. unfold has_key in H.
  unfold init_app, bind, attr, set_self, raise, recount_world, configured_count.
  cbn [self entropy drawn trace].
  destruct (config_SECRET_KEY app) as [k|].
  - rewrite H. destruct (config_FSC_EXPANSION_COUNT app); reflexivity.
  - destruct (config_FSC_EXPANSION_COUNT app); reflexivity.
Qed.

Lemma init_rejects_missing_key_witness :
  init_app Example.app_no_key
           (Example.fresh (configured Example.key_bytes 1000))
  = (Raise (RuntimeError "flask-simple-crypt requires the usage of SECRET_KEY"),
     Example.fresh (configured Example.key_bytes 5000)).
Proof.
  apply (init_rejects_missing_key Example.app_no_key
           (Example.fresh (configured Example.key_bytes 1000))).
  reflexivity.
Defined.

(** X2.  [SimpleCrypt(app)] with a secret key that is not empty returns
    an instance with the format constants (header of 5 bytes, half block
    of 64 bits), that key, and the configured expansion count or 10000;
    nothing is drawn and no library call is made. *)
Theorem init_configures (app : App) (key : value) (w0 : world) :
  config_SECRET_KEY app = Some key ->
  truthy_value key = true ->
  __init__ (Some app) w0
  = (Ok tt, with_self (configured key (configured_count app)) w0).
Proof.
  intros Hkey Hk.
  unfold __init__, init_app, bind, set_self, attr, raise, with_self,
    configured, configured_count.
  cbn [self entropy drawn trace fst snd]. rewrite Hkey, Hk. cbn [negb].
  destruct (config_FSC_EXPANSION_COUNT app); reflexivity.
Qed.

Lemma init_configures_witness :
  __init__ (Some Example.app) (Example.fresh unconfigured)
  = (Ok tt, Example.fresh (configured Example.key_bytes 1000)).
Proof.
  apply (init_configures Example.app Example.key_bytes
           (Example.fresh unconfigured)); reflexivity.
Defined.

(* ================================================================= *)
(** ** The random source *)

Lemma next_draws_length (w : world) (n : nat) : length (next_draws w n) = n.
Proof. unfold next_draws. rewrite length_map, length_seq. reflexivity. Qed.

Lemma _random_bytes_any {lib : CryptoLib} (n : Z) (w : world) :
  0 <= n ->
  _random_bytes n w =
  (Ok (PBKDF2 (next_draws w (Z.to_nat n)) [] n 1
              (fun p s => HMAC_digest p s SHA256)),
   with_trace (after_draws w (Z.to_nat n))
              [EvPBKDF2 (next_draws w (Z.to_nat n)) [] n 1]).
Proof.
  intros Hn. unfold _random_bytes.
  erewrite bind_ok by apply getrandbytes_run.
  unfold _hide. rewrite _pbkdf2_run.
  cbn [self after_draws]. destruct (HASH (self w)).
  replace (len (next_draws w (Z.to_nat n))) with n
    by (unfold len; rewrite next_draws_length; lia).
  reflexivity.
Qed.

(** X3.  [_random_bytes(n)] takes exactly [n] bytes from the random
    source, in order, and returns what PBKDF2 with one iteration and an
    empty salt makes of them: [n] bytes. *)
Theorem random_bytes_hidden {lib : CryptoLib} {laws : CryptoLaws lib}
        (n : Z) (w : world) :
  0 <= n ->
  exists out w',
    _random_bytes n w = (Ok out, w') /\
    out = PBKDF2 (map (entropy w) (seq (drawn w) (Z.to_nat n))) [] n 1
                 (fun p s => HMAC_digest p s SHA256) /\
    len out = n /\
    drawn w' = (drawn w + Z.to_nat n)%nat /\
    self w' = self w.
Proof.
  intros Hn. eexists. eexists. split; [apply _random_bytes_any; exact Hn|].
  split; [reflexivity|]. split; [apply PBKDF2_length; lia|].
  split; reflexivity.
Qed.

Lemma random_bytes_hidden_witness :
  exists out w',
    _random_bytes (lib := Example.toy) 4
                  (Example.fresh (configured Example.key_bytes 1000))
    = (Ok out, w') /\
    out = PBKDF2 (CryptoLib := Example.toy)
                 (map Example.toy_entropy (seq 0 (Z.to_nat 4))) [] 4 1
                 (fun p s => HMAC_digest (CryptoLib := Example.toy) p s SHA256) /\
    len out = 4 /\
    drawn w' = (0 + Z.to_nat 4)%nat /\
    self w' = configured Example.key_bytes 1000.
Proof.
  apply (random_bytes_hidden (laws := toy_laws) 4
           (Example.fresh (configured Example.key_bytes 1000))).
  lia.
Defined.

Lemma source_ret {A} (a : A) : keeps_source (ret a).
Proof. intros w. split; reflexivity. Qed.

Lemma source_raise {A} (e : exn) : keeps_source (@raise A e).
Proof. intros w. split; reflexivity. Qed.

Lemma source_lift {A} (r : result A) : keeps_source (lift r).
Proof. intros w. split; reflexivity. Qed.

Lemma source_attr {A} (f : SimpleCrypt -> A) : keeps_source (attr f).
Proof. intros w. split; reflexivity. Qed.

Lemma source_log (e : event) : keeps_source (log e).
Proof. intros w. split; reflexivity. Qed.

Lemma source_bind {A B} (m : M A) (k : A -> M B) :
  keeps_source m -> (forall a, keeps_source (k a)) -> keeps_source (bind m k).
Proof.
  intros Hm Hk w. unfold bind, world_of.
  specialize (Hm w). unfold world_of in Hm.
  destruct (m w) as [[a|e] w']; simpl in *.
  - destruct Hm as [<- <-]. apply Hk.
  - exact Hm.
Qed.

Ltac source_step :=
  match goal with
  | |- keeps_source (bind _ _) => apply source_bind; [|intros]
  | |- keeps_source (ret _) => apply source_ret
  | |- keeps_source (raise _) => apply source_raise
  | |- keeps_source (lift _) => apply source_lift
  | |- keeps_source (attr _) => apply source_attr
  | |- keeps_source (log _) => apply source_log
  | |- keeps_source (if ?c then _ else _) => destruct c
  | |- keeps_source (match ?x with _ => _ end) => destruct x
  end.

Section Source.

Context {lib : CryptoLib}.

Lemma source_ctr_blocks (key : bytes) (n : nat) (c : Counter) (data : bytes) :
  keeps_source (ctr_blocks key n c data).
Proof.
  revert c data. induction n as [|n IH]; intros c data; cbn [ctr_blocks].
  - apply source_ret.
  - unfold AES_block. repeat source_step. apply IH.
Qed.

Lemma source__hmac (key data : bytes) : keeps_source (_hmac key data).
Proof. unfold _hmac. repeat source_step. Qed.

Lemma source__expand_keys (password : option value) (salt : bytes)
      (count : option Z) :
  keeps_source (_expand_keys password salt count).
Proof.
  unfold _expand_keys, _str_to_bytes, _pbkdf2. repeat source_step.
Qed.

Lemma source__assert_hmac (key hmac hmac2 : bytes) :
  keeps_source (_assert_hmac key hmac hmac2).
Proof. unfold _assert_hmac. repeat source_step; apply source__hmac. Qed.

Lemma source_decrypt (data : value) : keeps_source (decrypt data).
Proof.
  unfold decrypt, _assert_not_unicode, _assert_header_prefix,
    _assert_decrypt_length, cipher_decrypt.
  repeat source_step;
    first [ apply source__expand_keys | apply source_ctr_blocks
          | apply source__hmac | apply source__assert_hmac ].
Qed.

(** X4.  [decrypt] never uses the random source, whatever its input and
    whether it returns or raises. *)
Theorem decrypt_draws_nothing (input : value) (w : world) :
  drawn (world_of (decrypt input w)) = drawn w /\
  entropy (world_of (decrypt input w)) = entropy w.
Proof. apply source_decrypt. Qed.

(** X5.  Once the plaintext has passed the length check, [encrypt] has
    drawn exactly 32 bytes when it ends, whether it returns or raises
    later (a missing key, say): two calls in a row never share a draw. *)
Theorem encrypt_draws_salt (data : value) (b : bytes) (w : world) :
  SALT_LEN (self w) = 256 ->
  HALF_BLOCK (self w) = 64 ->
  value_bytes data = Ok b ->
  len b <= 2 ^ 64 ->
  drawn (world_of (encrypt data w)) = (drawn w + 32)%nat /\
  entropy (world_of (encrypt data w)) = entropy w.
Proof.
  intros Hsl Hhb Hb Hlen.
  unfold encrypt.
  erewrite bind_ok by (rewrite _str_to_bytes_run, Hb; reflexivity).
  erewrite bind_ok.
  2:{ unfold _assert_encrypt_length. erewrite bind_ok by reflexivity.
      rewrite Hhb.
      destruct (len b >? 2 ^ 64) eqn:E; [apply Z.gtb_lt in E; lia|].
      reflexivity. }
  erewrite bind_ok by reflexivity. rewrite Hsl.
  erewrite bind_ok by (apply _random_bytes_any; vm_compute; discriminate).
  lazymatch goal with
  | |- drawn (world_of (?m ?w1)) = _ /\ _ =>
      assert (Hm : keeps_source m)
  end.
  { unfold cipher_encrypt.
    repeat source_step;
      first [ apply source__expand_keys | apply source_ctr_blocks
            | apply source__hmac ]. }
  split; [exact (proj1 (Hm _)) | exact (proj2 (Hm _))].
Qed.

End Source.

Lemma encrypt_draws_salt_witness :
  drawn (world_of (encrypt (lib := Example.toy) (Bytes Example.hello_world)
                     (Example.fresh unconfigured))) = (0 + 32)%nat /\
  entropy (world_of (encrypt (lib := Example.toy) (Bytes Example.hello_world)
                       (Example.fresh unconfigured))) = Example.toy_entropy.
Proof.
  apply (encrypt_draws_salt (lib := Example.toy) (Bytes Example.hello_world)
           Example.hello_world (Example.fresh unconfigured));
    [reflexivity | reflexivity | reflexivity | vm_compute; discriminate].
Defined.

(* ================================================================= *)
(** ** An instance without a key *)

(** X6.  On [SimpleCrypt()], built without an application, [decrypt] of
    an input that passes the prefix and length checks raises
    [ValueError("Missing password.")] before anything is derived. *)
Theorem unconfigured_decrypt_fails {lib : CryptoLib}
        (data : bytes) (w0 : world) :
  69 <= len data ->
  wrong_prefix data = false ->
  exists w,
    __init__ None w0 = (Ok tt, w) /\
    decrypt (Bytes data) w = (Raise (ValueError "Missing password."), w).
Proof.
  intros Hl Hp. exists (with_self unconfigured w0). split; [reflexivity|].
  unfold decrypt.
  erewrite bind_ok by reflexivity.
  erewrite bind_ok.
  2:{ unfold _assert_header_prefix. erewrite bind_ok by reflexivity.
      cbn [self with_self PREFIX unconfigured].
      unfold wrong_prefix in Hp. rewrite Hp. reflexivity. }
  erewrite bind_ok.
  2:{ unfold _assert_decrypt_length.
      do 3 erewrite bind_ok by reflexivity.
      cbn [self with_self HEADER_LEN SALT_LEN HASH unconfigured digest_size].
      change (5 + 256 / 8 + 32) with 69.
      destruct (len data <? 69) eqn:E; [apply Z.ltb_lt in E; lia|].
      reflexivity. }
  do 4 erewrite bind_ok by reflexivity.
  cbn [self with_self HEADER_LEN SALT_LEN FSC_KEY EXPANSION_COUNT unconfigured].
  change (256 / 8) with 32. fold (raw_in data). fold (salt_in data).
  erewrite bind_raise; [reflexivity|].
  unfold _expand_keys.
  rewrite (truthy_of_length (salt_in data) 31 (salt_in_length data Hl)).
  reflexivity.
Qed.

Lemma unconfigured_decrypt_fails_witness :
  exists w,
    __init__ None (Example.fresh unconfigured) = (Ok tt, w) /\
    decrypt (lib := Example.toy) (Bytes Example.envelope) w
    = (Raise (ValueError "Missing password."), w).
Proof.
  apply (unconfigured_decrypt_fails (lib := Example.toy) Example.envelope
           (Example.fresh unconfigured));
    [vm_compute; discriminate | vm_compute; reflexivity].
Defined.

(** X7.  On an instance without a key, [encrypt] of a plaintext within
    the length bound raises [ValueError("Missing password.")] only after
    the salt was made: 32 bytes were drawn and hidden through PBKDF2, and
    neither the cipher nor the MAC was reached. *)
Theorem unconfigured_encrypt_fails {lib : CryptoLib} {laws : CryptoLaws lib}
        (p : bytes) (w : world) :
  self w = unconfigured ->
  len p <= 2 ^ 64 ->
  encrypt (Bytes p) w
  = (Raise (ValueError "Missing password."),
     with_trace (after_draws w 32) [EvPBKDF2 (next_draws w 32) [] 32 1]).
Proof.
  intros Hs Hlen. unfold encrypt.
  erewrite bind_ok by reflexivity.
  erewrite bind_ok.
  2:{ unfold _assert_encrypt_length. erewrite bind_ok by reflexivity.
      rewrite Hs. cbn [HALF_BLOCK unconfigured].
      destruct (len p >? 2 ^ 64) eqn:E; [apply Z.gtb_lt in E; lia|].
      reflexivity. }
  erewrite bind_ok by reflexivity.
  rewrite Hs. cbn [SALT_LEN unconfigured].
  erewrite bind_ok by (apply _random_bytes_any; vm_compute; discriminate).
  change (Z.to_nat (256 / 8)) with 32%nat. change (256 / 8) with 32.
  fold (salt_of w).
  do 2 erewrite bind_ok by reflexivity.
  cbn [self with_trace after_draws]. rewrite Hs.
  cbn [FSC_KEY EXPANSION_COUNT unconfigured].
  erewrite bind_raise; [reflexivity|].
  unfold _expand_keys.
  rewrite (truthy_of_length (salt_of w) 31 (salt_of_length w)).
  reflexivity.
Qed.

Lemma unconfigured_encrypt_fails_witness :
  encrypt (lib := Example.toy) (Bytes Example.hello_world)
          (Example.fresh unconfigured)
  = (Raise (ValueError "Missing password."),
     with_trace (after_draws (Example.fresh unconfigured) 32)
       [EvPBKDF2 (next_draws (Example.fresh unconfigured) 32) [] 32 1]).
Proof.
  apply (unconfigured_encrypt_fails (laws := toy_laws) Example.hello_world
           (Example.fresh unconfigured));
    [reflexivity | vm_compute; discriminate].
Defined.

(* ================================================================= *)
(** ** The checks of [decrypt] *)

(** X8.  An input of three bytes or more that does not start with
    [b"fsc"] raises the bad-header error whatever its length, before any
    other check and before anything is derived. *)
Theorem bad_header_rejected {lib : CryptoLib} (data : bytes) (w : world) :
  PREFIX (self w) = [x66; x73; x63] ->
  wrong_prefix data = true ->
  decrypt (Bytes data) w = (Raise bad_header, w).
Proof.
  intros Hs Hp. unfold decrypt.
  erewrite bind_ok by reflexivity.
  erewrite bind_raise; [reflexivity|].
  unfold _assert_header_prefix. erewrite bind_ok by reflexivity.
  rewrite Hs. unfold wrong_prefix in Hp. rewrite Hp. reflexivity.
Qed.

Lemma bad_header_rejected_witness :
  decrypt (lib := Example.toy) (Bytes (x00 :: Example.envelope))
          (Example.fresh (configured Example.key_bytes 1000))
  = (Raise bad_header, Example.fresh (configured Example.key_bytes 1000)).
Proof.
  apply (bad_header_rejected (lib := Example.toy) (x00 :: Example.envelope)
           (Example.fresh (configured Example.key_bytes 1000)));
    [reflexivity | vm_compute; reflexivity].
Defined.

Lemma ctr_blocks_raises {lib : CryptoLib} (key : bytes) (n : nat) (c : Counter)
      (data : bytes) (w w' : world) (e : exn) :
  ctr_blocks key n c data w = (Raise e, w') -> e = OverflowError.
Proof.
  revert c data w w'. induction n as [|n IH]; intros c data w w'.
  - cbn [ctr_blocks]. unfold ret. discriminate.
  - cbn [ctr_blocks]. unfold bind at 1, lift, Counter_call.
    destruct (2 ^ ctr_nbits c <=? ctr_value c).
    { intros H. inversion H. reflexivity. }
    cbn [fst snd]. unfold bind at 1, AES_block. unfold bind at 1.
    rewrite log_run_eq. unfold ret at 1. unfold bind at 1.
    destruct (ctr_blocks key n (Counter_incr c) _ _) as [[rest|e'] w1] eqn:E.
    + unfold ret. discriminate.
    + intros H. inversion H. subst. eapply IH. exact E.
Qed.

(** X9.  The bound of the length check is exact: [decrypt] raises
    "Missing data." exactly on the inputs shorter than 69 bytes that pass
    the prefix check; from 69 bytes on it never does. *)
Theorem missing_data_exactly {lib : CryptoLib}
        (key : value) (kb : bytes) (count : Z) (data : bytes) (w : world) :
  self w = configured key count ->
  truthy_value key = true ->
  value_bytes key = Ok kb ->
  result_of (decrypt (Bytes data) w) = Raise missing_data
  <-> (len data < 69 /\ wrong_prefix data = false).
Proof.
  intros Hs Hk Hkb. split.
  - intros H.
    destruct (wrong_prefix data) eqn:Hp.
    { rewrite (decrypt_wrong_prefix key count data w Hs Hp) in H.
      discriminate. }
    destruct (Z.lt_ge_cases (len data) 69) as [Hlt|Hge]; [split; auto|].
    rewrite (decrypt_checked key kb count data w Hs Hk Hkb Hge Hp) in H.
    cbn zeta in H.
    destruct (bytes_eqb _ _); [|discriminate].
    destruct (ctr_blocks _ _ _ _ _) as [[out|e] w'] eqn:E; [discriminate|].
    apply ctr_blocks_raises in E. subst e. discriminate.
  - intros [Hlt Hp].
    rewrite (decrypt_short key count data w Hs Hlt), Hp. reflexivity.
Qed.

Lemma missing_data_exactly_witness :
  result_of (decrypt (lib := Example.toy) (Bytes (firstn 68 Example.envelope))
               (Example.fresh (configured Example.key_bytes 1000)))
  = Raise missing_data
  <-> (len (firstn 68 Example.envelope) < 69 /\
       wrong_prefix (firstn 68 Example.envelope) = false).
Proof.
  apply (missing_data_exactly (lib := Example.toy) Example.key_bytes
           [x6b; x65; x79] 1000 (firstn 68 Example.envelope)
           (Example.fresh (configured Example.key_bytes 1000)));
    reflexivity.
Defined.

(** X10.  What [decrypt] asks of its input is the three-byte prefix, 69
    bytes and a MAC that matches; the two version bytes after the prefix
    are compared with nothing.  On such an input it derives the keys once,
    computes three HMACs, and only then runs counter mode over the bytes
    between salt and MAC, whose output it returns. *)
Theorem matching_mac_accepted {lib : CryptoLib}
        (key : value) (kb : bytes) (count : Z) (data : bytes) (w : world) :
  self w = configured key count ->
  truthy_value key = true ->
  value_bytes key = Ok kb ->
  69 <= len data ->
  wrong_prefix data = false ->
  mac_in data = recomputed_mac kb count data ->
  len (ciphertext_in data) <= 2 ^ 64 ->
  decrypt (Bytes data) w
  = (Ok (plaintext_in kb count data),
     with_trace w (decrypt_events kb count data)).
Proof.
  intros Hs Hk Hkb Hl Hp Hmac Hct.
  rewrite (decrypt_checked key kb count data w Hs Hk Hkb Hl Hp). cbn zeta.
  rewrite Hmac, bytes_eqb_refl.
  rewrite ctr_blocks_run.
  - unfold decrypt_events, plaintext_in. rewrite with_trace_app. reflexivity.
  - cbn [ctr_value ctr_nbits counter_of Counter_new].
    unfold initial_value_default. apply blocks_of_bound. exact Hct.
Qed.

Lemma matching_mac_accepted_witness :
  decrypt (lib := Example.toy) (Bytes Example.other_version)
          (Example.fresh (configured Example.key_bytes 1000))
  = (Ok (plaintext_in (lib := Example.toy) [x6b; x65; x79] 1000
                      Example.other_version),
     with_trace (Example.fresh (configured Example.key_bytes 1000))
       (decrypt_events (lib := Example.toy) [x6b; x65; x79] 1000
                       Example.other_version)).
Proof.
  apply (matching_mac_accepted (lib := Example.toy) Example.key_bytes
           [x6b; x65; x79] 1000 Example.other_version
           (Example.fresh (configured Example.key_bytes 1000)));
    [ reflexivity | reflexivity | reflexivity | vm_compute; discriminate
    | vm_compute; reflexivity | vm_compute; reflexivity
    | vm_compute; discriminate ].
Defined.

(** X11.  The MAC at the end of an envelope covers everything before it:
    what [encrypt] returns is some bytes followed by the 32-byte HMAC of
    exactly those bytes (header, salt and ciphertext), under the MAC key
    derived from the salt the envelope carries. *)
Theorem envelope_authenticated {lib : CryptoLib} {laws : CryptoLaws lib}
        (key : value) (kb : bytes) (count : Z) (p : bytes) (w : world) :
  self w = configured key count ->
  truthy_value key = true ->
  value_bytes key = Ok kb ->
  0 < count ->
  len p <= 2 ^ 64 ->
  exists env w',
    encrypt (Bytes p) w = (Ok env, w') /\
    env = authenticated_in env ++ mac_in env /\
    len (mac_in env) = 32 /\
    mac_in env
    = HMAC_digest (hmac_key_of (derived kb (salt_in env) count))
                  (authenticated_in env) SHA256.
Proof.
  intros Hs Hk Hkb Hc Hlen.
  pose proof (salt_of_length w) as Hsalt.
  pose proof (mac_of_length kb count (salt_of w)
                (ciphertext_of kb count (salt_of w) p)) as Hmac.
  eexists. eexists. split.
  - apply (encrypt_run key kb count p w Hs Hk Hkb Hlen).
    eapply truthy_of_length. exact Hsalt.
  - unfold envelope_of. cbn zeta.
    rewrite mac_in_envelope, authenticated_in_envelope, salt_in_envelope
      by assumption.
    split; [rewrite <- !app_assoc; reflexivity|].
    split; [unfold len; rewrite Hmac; reflexivity|].
    reflexivity.
Qed.

Lemma envelope_authenticated_witness :
  exists env w',
    encrypt (lib := Example.toy) (Bytes Example.hello_world)
            (Example.fresh (configured Example.key_bytes 1000)) = (Ok env, w') /\
    env = authenticated_in env ++ mac_in env /\
    len (mac_in env) = 32 /\
    mac_in env
    = HMAC_digest (CryptoLib := Example.toy)
        (hmac_key_of (derived (lib := Example.toy) [x6b; x65; x79]
                              (salt_in env) 1000))
        (authenticated_in env) SHA256.
Proof.
  apply (envelope_authenticated (laws := toy_laws)
           Example.key_bytes [x6b; x65; x79] 1000 Example.hello_world
           (Example.fresh (configured Example.key_bytes 1000)));
    [reflexivity | reflexivity | reflexivity | lia | vm_compute; discriminate].
Defined.

(* ================================================================= *)
(** ** Key expansion *)

Lemma slice_split {A} (l : list A) (n : Z) :
  0 <= n <= len l -> slice l None (Some n) ++ slice l (Some n) None = l.
Proof.
  unfold slice, slice_bound, len. intros Hn.
  destruct (n <? 0) eqn:E; [apply Z.ltb_lt in E; lia|].
  rewrite Z.min_l by lia. rewrite Z.sub_0_r. simpl skipn.
  rewrite (firstn_all2 (skipn (Z.to_nat n) l))
    by (rewrite length_skipn; lia).
  apply firstn_skipn.
Qed.

(** X12.  With a password and a salt that are not empty, [_expand_keys]
    calls PBKDF2 once, for 64 bytes, and returns them split in two with
    nothing lost or shared: the first 32 bytes are the MAC key and the
    last 32 the cipher key. *)
Theorem expand_keys_halves {lib : CryptoLib} {laws : CryptoLaws lib}
        (password : value) (kb salt : bytes) (count : Z) (w : world) :
  AES_KEY_LEN (self w) = 256 ->
  truthy_value password = true ->
  value_bytes password = Ok kb ->
  truthy salt = true ->
  0 < count ->
  exists hmac_key cipher_key,
    _expand_keys (Some password) salt (Some count) w
    = (Ok (hmac_key, cipher_key), with_trace w [EvPBKDF2 kb salt 64 count]) /\
    hmac_key ++ cipher_key
    = PBKDF2 kb salt 64 count (fun p s => HMAC_digest p s SHA256) /\
    len hmac_key = 32 /\ len cipher_key = 32.
Proof.
  intros Ha Hk Hkb Hsalt Hc.
  pose proof (derived_length kb salt count Hc) as Hd.
  exists (hmac_key_of (derived kb salt count)),
    (cipher_key_of (derived kb salt count)).
  split.
  - unfold _expand_keys. rewrite Hsalt, Hk. cbn [negb].
    erewrite bind_ok by reflexivity.
    erewrite bind_ok by (rewrite _str_to_bytes_run, Hkb; reflexivity).
    rewrite Ha.
    erewrite bind_ok by apply _pbkdf2_run.
    destruct (HASH (self w)). reflexivity.
  - fold (derived kb salt count). unfold hmac_key_of, cipher_key_of. split.
    + apply slice_split. unfold len. lia.
    + unfold len.
      rewrite slice_first_length, slice_rest_length by (unfold len; lia).
      unfold len. lia.
Qed.

Lemma expand_keys_halves_witness :
  exists hmac_key cipher_key,
    _expand_keys (lib := Example.toy) (Some Example.key_text)
                 [x01; x02] (Some 7)
                 (Example.fresh unconfigured)
    = (Ok (hmac_key, cipher_key),
       with_trace (Example.fresh unconfigured)
                  [EvPBKDF2 [x6b; x65; x79] [x01; x02] 64 7]) /\
    hmac_key ++ cipher_key
    = PBKDF2 (CryptoLib := Example.toy) [x6b; x65; x79] [x01; x02] 64 7
             (fun p s => HMAC_digest (CryptoLib := Example.toy) p s SHA256) /\
    len hmac_key = 32 /\ len cipher_key = 32.
Proof.
  apply (expand_keys_halves (laws := toy_laws) Example.key_text
           [x6b; x65; x79] [x01; x02] 7 (Example.fresh unconfigured));
    [reflexivity | reflexivity | reflexivity | reflexivity | lia].
Defined.

(* ================================================================= *)
(** ** Two instances *)

(** X13.  An envelope made on one instance is read on any other that has
    the same key bytes and the same count, whatever its random source and
    its past calls, and whether each holds the key as text or as bytes. *)
Theorem roundtrip_across_instances {lib : CryptoLib} {laws : CryptoLaws lib}
        (key1 key2 : value) (kb : bytes) (count : Z) (p : bytes)
        (w1 w2 : world) :
  self w1 = configured key1 count ->
  self w2 = configured key2 count ->
  truthy_value key1 = true ->
  truthy_value key2 = true ->
  value_bytes key1 = Ok kb ->
  value_bytes key2 = Ok kb ->
  0 < count ->
  len p <= 2 ^ 64 ->
  exists env w1',
    encrypt (Bytes p) w1 = (Ok env, w1') /\
    result_of (decrypt (Bytes env) w2) = Ok p.
Proof.
  intros Hs1 Hs2 Hk1 Hk2 Hkb1 Hkb2 Hc Hlen.
  pose proof (salt_of_length w1) as Hsalt.
  eexists. eexists. split.
  - apply (encrypt_run key1 kb count p w1 Hs1 Hk1 Hkb1 Hlen).
    eapply truthy_of_length. exact Hsalt.
  - rewrite (decrypt_envelope key2 kb count (salt_of w1) p w2
               Hs2 Hk2 Hkb2 Hc Hlen Hsalt).
    reflexivity.
Qed.

Lemma roundtrip_across_instances_witness :
  exists env w1',
    encrypt (lib := Example.toy) (Bytes Example.hello_world)
            (Example.fresh (configured Example.key_text 1000)) = (Ok env, w1') /\
    result_of (decrypt (lib := Example.toy) (Bytes env)
                 (with_trace (Example.fresh (configured Example.key_bytes 1000))
                             [EvGetrandbits 8]))
    = Ok Example.hello_world.
Proof.
  apply (roundtrip_across_instances (laws := toy_laws)
           Example.key_text Example.key_bytes [x6b; x65; x79] 1000
           Example.hello_world
           (Example.fresh (configured Example.key_text 1000))
           (with_trace (Example.fresh (configured Example.key_bytes 1000))
                       [EvGetrandbits 8]));
    [ reflexivity | reflexivity | reflexivity | reflexivity | reflexivity
    | reflexivity | lia | vm_compute; discriminate ].
Defined.

(* ================================================================= *)
(** ** The length check on inputs that exist *)

Lemma encode_utf8_raises (s : text) (e : exn) :
  encode_utf8 s = Raise e -> e = UnicodeEncodeError.
Proof.
  induction s as [|cp rest IH]; simpl; [discriminate|].
  destruct (encode_codepoint cp) as [b0|e0] eqn:E0.
  - destruct (encode_utf8 rest) as [bs|e1]; [discriminate|].
    intros H. inversion H. subst. apply IH. reflexivity.
  - intros H. inversion H. subst. clear H. revert E0.
    unfold encode_codepoint.
    repeat match goal with
           | |- context [if ?c then _ else _] => destruct c
           end; intros H; inversion H; reflexivity.
Qed.

Lemma never_ret {A} (e0 : exn) (a : A) : never_raises e0 (ret a).
Proof. intros w. discriminate. Qed.

Lemma never_attr {A} (e0 : exn) (f : SimpleCrypt -> A) :
  never_raises e0 (attr f).
Proof. intros w. discriminate. Qed.

Lemma never_log (e0 : exn) (e : event) : never_raises e0 (log e).
Proof. intros w. discriminate. Qed.

Lemma never_getrandbits8 (e0 : exn) : never_raises e0 getrandbits8.
Proof. intros w. discriminate. Qed.

Lemma never_raise {A} (e0 e : exn) : e <> e0 -> never_raises e0 (@raise A e).
Proof. intros H w E. inversion E. contradiction. Qed.

Lemma never_lift {A} (e0 : exn) (r : result A) :
  r <> Raise e0 -> never_raises e0 (lift r).
Proof. intros H w. exact H. Qed.

Lemma never_bind {A B} (e0 : exn) (m : M A) (k : A -> M B) :
  never_raises e0 m -> (forall a, never_raises e0 (k a)) ->
  never_raises e0 (bind m k).
Proof.
  intros Hm Hk w. unfold bind, result_of.
  specialize (Hm w). unfold result_of in Hm.
  destruct (m w) as [[a|e] w']; simpl in *.
  - apply Hk.
  - intros E. apply Hm. inversion E. reflexivity.
Qed.

Ltac never_step :=
  match goal with
  | |- never_raises _ (bind _ _) => apply never_bind; [|intros]
  | |- never_raises _ (ret _) => apply never_ret
  | |- never_raises _ (raise _) =>
      apply never_raise; unfold too_long; discriminate
  | |- never_raises _ (attr _) => apply never_attr
  | |- never_raises _ (log _) => apply never_log
  | |- never_raises _ getrandbits8 => apply never_getrandbits8
  | |- never_raises _ (if ?c then _ else _) => destruct c
  | |- never_raises _ (match ?x with _ => _ end) => destruct x
  end.

Section LengthCheck.

Context {lib : CryptoLib}.

Lemma never_ctr_blocks (key : bytes) (n : nat) (c : Counter) (data : bytes) :
  never_raises too_long (ctr_blocks key n c data).
Proof.
  revert c data. induction n as [|n IH]; intros c data; cbn [ctr_blocks].
  - apply never_ret.
  - unfold AES_block. repeat never_step; [|apply IH].
    apply never_lift. unfold Counter_call.
    destruct (2 ^ ctr_nbits c <=? ctr_value c); unfold too_long; discriminate.
Qed.

Lemma never_getrandbytes (n : nat) : never_raises too_long (getrandbytes n).
Proof.
  induction n as [|n IH]; cbn [getrandbytes]; repeat never_step. exact IH.
Qed.

Lemma never__str_to_bytes (v : value) : never_raises too_long (_str_to_bytes v).
Proof.
  destruct v as [s|b]; cbn [_str_to_bytes]; [|apply never_ret].
  apply never_lift. intros H. apply encode_utf8_raises in H. discriminate.
Qed.

Lemma never_after_length_check (data : bytes) :
  never_raises too_long
    (sl <- attr SALT_LEN ;;
     salt <- _random_bytes (sl / 8) ;;
     key <- attr FSC_KEY ;;
     count <- attr EXPANSION_COUNT ;;
     keys <- _expand_keys key salt count ;;
     hb <- attr HALF_BLOCK ;;
     encrypted <-
       cipher_encrypt
         (AES_new_CTR (snd keys)
            (Counter_new hb (slice salt None (Some (hb / 8))))) data ;;
     header <- attr HEADER ;;
     hmac <- _hmac (fst keys) (header ++ salt ++ encrypted) ;;
     ret (header ++ salt ++ encrypted ++ hmac)).
Proof.
  unfold _random_bytes, _hide, _expand_keys, _pbkdf2, _hmac, cipher_encrypt.
  repeat never_step;
    first [ apply never_getrandbytes | apply never__str_to_bytes
          | apply never_ctr_blocks ].
Qed.

(** X14.  The length check of [encrypt] passes on every plaintext a
    Python process can hold: a [bytes] object has at most [sys.maxsize]
    bytes, which is below [2 ** 64], the bound of the check; [encrypt]
    never raises the encryption-length error on such a plaintext,
    whatever else it returns or raises. *)
Theorem length_check_passes (data : value) (b : bytes) (w : world) :
  HALF_BLOCK (self w) = 64 ->
  value_bytes data = Ok b ->
  len b <= maxsize ->
  _assert_encrypt_length b w = (Ok tt, w) /\
  result_of (encrypt data w) <> Raise too_long.
Proof.
  intros Hhb Hb Hlen. unfold maxsize in Hlen.
  assert (Hcheck : _assert_encrypt_length b w = (Ok tt, w)).
  { unfold _assert_encrypt_length. erewrite bind_ok by reflexivity.
    rewrite Hhb.
    destruct (len b >? 2 ^ 64) eqn:E; [apply Z.gtb_lt in E; lia|].
    reflexivity. }
  split; [exact Hcheck|].
  unfold encrypt.
  erewrite bind_ok by (rewrite _str_to_bytes_run, Hb; reflexivity).
  erewrite bind_ok by exact Hcheck.
  apply never_after_length_check.
Qed.

End LengthCheck.

Lemma length_check_passes_witness :
  _assert_encrypt_length Example.hello_world
                         (Example.fresh (configured Example.key_bytes 1000))
  = (Ok tt, Example.fresh (configured Example.key_bytes 1000)) /\
  result_of (encrypt (lib := Example.toy) (Bytes Example.hello_world)
               (Example.fresh (configured Example.key_bytes 1000)))
  <> Raise too_long.
Proof.
  apply (length_check_passes (lib := Example.toy) (Bytes Example.hello_world)
           Example.hello_world
           (Example.fresh (configured Example.key_bytes 1000)));
    [reflexivity | reflexivity | vm_compute; discriminate].
Defined.
